(** * json2jsonl: the shape-resolving parser and the JSONL writer

    A shallow embedding of [json2jsonl.py] (and of the sibling writer of
    [gen.py]).  A Python [str] is a sequence of Unicode code points, so a
    text is a list of code points ([N]).  The functions of Python's [json]
    module that the script calls, [json.loads] and [json.dumps], are
    modelled in [Module Json] after CPython's scanner and encoder.

    Modelling boundary of [Module Json]: an integer literal is a [Z]; a
    literal with a fraction or an exponent, [NaN], [Infinity] and
    [-Infinity] are carried as the text of the literal (Python turns them
    into a binary64 float, whose rounding and [repr] are not modelled).
    The interpreter's resource limits (recursion depth, the bound on the
    number of digits of an integer literal) are not modelled either. *)

From Stdlib Require Import Ascii String.
From Stdlib Require Import List NArith ZArith Bool Lia.
Import ListNotations.

Set Warnings "-register-all".

Local Open Scope N_scope.

(** ** Text *)

Definition text := list N.

(** A string literal as a text, for examples (code points below 256). *)
Definition txt (s : string) : text :=
  map N_of_ascii (list_ascii_of_string s).
Arguments txt s%_string.

(** The same with every apostrophe read as a double quote, to write JSON
    examples. *)
Definition jtxt (s : string) : text :=
  map (fun c => if N.eqb c 39 then 34%N else c) (txt s).
Arguments jtxt s%_string.

Definition QUOTE : N := 34.      (* double quote *)
Definition PLUS : N := 43.       (* '+' *)
Definition COMMA : N := 44.      (* ',' *)
Definition MINUS : N := 45.      (* '-' *)
Definition DOT : N := 46.        (* '.' *)
Definition SLASH : N := 47.      (* '/' *)
Definition COLON : N := 58.      (* ':' *)
Definition LBRACKET : N := 91.   (* '[' *)
Definition BACKSLASH : N := 92.  (* backslash *)
Definition RBRACKET : N := 93.   (* ']' *)
Definition LBRACE : N := 123.    (* '{' *)
Definition RBRACE : N := 125.    (* '}' *)
Definition NEWLINE : N := 10.    (* '\n' *)
Definition SPACE : N := 32.      (* ' ' *)

Fixpoint text_eqb (a b : text) : bool :=
  match a, b with
  | [], [] => true
  | x :: a', y :: b' => (x =? y) && text_eqb a' b'
  | _, _ => false
  end.

(** [str.isspace] on one code point: the characters [str.strip()] removes. *)
Definition py_isspace (c : N) : bool :=
  ((9 <=? c) && (c <=? 13)) || ((28 <=? c) && (c <=? 32))
  || (c =? 133) || (c =? 160) || (c =? 5760)
  || ((8192 <=? c) && (c <=? 8202))
  || (c =? 8232) || (c =? 8233) || (c =? 8239) || (c =? 8287) || (c =? 12288).

Fixpoint lstrip (s : text) : text :=
  match s with
  | c :: r => if py_isspace c then lstrip r else s
  | [] => []
  end.

Definition rstrip (s : text) : text := rev (lstrip (rev s)).

(** [s.strip()] *)
Definition strip (s : text) : text := rstrip (lstrip s).

(** [s.split('\n')]: never empty; a text without newline is its own only
    piece. *)
Fixpoint split_lines (s : text) : list text :=
  match s with
  | [] => [[]]
  | c :: r =>
      if c =? NEWLINE then [] :: split_lines r
      else match split_lines r with
           | l :: ls => (c :: l) :: ls
           | [] => [[c]]
           end
  end.

(** [s[a:b]] for [0 <= a], [0 <= b]. *)
Definition slice (s : text) (a b : nat) : text :=
  firstn (b - a) (skipn a s).

(** ** Python's json module *)

Module Json.

(** A JSON value as Python holds it.  A dict keeps insertion order; its keys
    are strings. *)
Inductive json : Type :=
| JNull
| JBool (b : bool)
| JInt (z : Z)
| JFloat (lit : text)
| JStr (s : text)
| JArr (items : list json)
| JObj (members : list (text * json)).

Definition dict := list (text * json).

(** [d[k] = v]: an existing key keeps its place and takes the new value, a
    new key goes last. *)
Fixpoint dict_set (k : text) (v : json) (d : dict) : dict :=
  match d with
  | [] => [(k, v)]
  | (k', v') :: d' =>
      if text_eqb k' k then (k', v) :: d' else (k', v') :: dict_set k v d'
  end.

Definition is_ws (c : N) : bool :=
  (c =? 32) || (c =? 9) || (c =? 10) || (c =? 13).

Fixpoint skip_ws (s : text) : text :=
  match s with
  | c :: r => if is_ws c then skip_ws r else s
  | [] => []
  end.

Definition is_digit (c : N) : bool := (48 <=? c) && (c <=? 57).

Definition hex_val (c : N) : option N :=
  if (48 <=? c) && (c <=? 57) then Some (c - 48)
  else if (97 <=? c) && (c <=? 102) then Some (c - 87)
  else if (65 <=? c) && (c <=? 70) then Some (c - 55)
  else None.

Definition hex4 (a b c d : N) : option N :=
  match hex_val a, hex_val b, hex_val c, hex_val d with
  | Some x, Some y, Some z, Some w => Some (((x * 16 + y) * 16 + z) * 16 + w)
  | _, _, _, _ => None
  end.

Definition is_high_surrogate (c : N) : bool := (55296 <=? c) && (c <=? 56319).
Definition is_low_surrogate (c : N) : bool := (56320 <=? c) && (c <=? 57343).
Definition join_surrogates (hi lo : N) : N :=
  65536 + (hi - 55296) * 1024 + (lo - 56320).

(** The one-letter escapes after a backslash. *)
Definition simple_escape (e : N) : option N :=
  if e =? QUOTE then Some QUOTE
  else if e =? BACKSLASH then Some BACKSLASH
  else if e =? SLASH then Some SLASH
  else if e =? 98 then Some 8        (* \b *)
  else if e =? 102 then Some 12      (* \f *)
  else if e =? 110 then Some 10      (* \n *)
  else if e =? 114 then Some 13      (* \r *)
  else if e =? 116 then Some 9       (* \t *)
  else None.

Definition cons_fst (c : N) (r : option (text * text)) : option (text * text) :=
  match r with
  | Some (str, rest) => Some (c :: str, rest)
  | None => None
  end.

(** What follows the escape of a high surrogate: the escape of a low
    surrogate, which makes a pair with it, a [\u] with bad digits, or
    anything else. *)
Inductive ahead : Type :=
| NoPair
| Pair (u2 : N)
| BadEscape.

Definition pair_ahead (r2 : text) : ahead :=
  match r2 with
  | b :: u' :: g1 :: g2 :: g3 :: g4 :: _ =>
      if (b =? BACKSLASH) && (u' =? 117) then
        match hex4 g1 g2 g3 g4 with
        | None => BadEscape
        | Some u2 => if is_low_surrogate u2 then Pair u2 else NoPair
        end
      else NoPair
  | _ => NoPair
  end.

(** [scanstring], strict mode, from just after the opening quote: the
    decoded string and the text after the closing quote. *)
Fixpoint scanstring (s : text) : option (text * text) :=
  match s with
  | [] => None
  | c :: r =>
      if c =? QUOTE then Some ([], r)
      else if c =? BACKSLASH then
        match r with
        | [] => None
        | e :: r1 =>
            if e =? 117 then                       (* \uXXXX *)
              match r1 with
              | h1 :: h2 :: h3 :: h4 :: r2 =>
                  match hex4 h1 h2 h3 h4 with
                  | None => None
                  | Some u =>
                      if is_high_surrogate u then
                        match pair_ahead r2 with
                        | BadEscape => None
                        | NoPair => cons_fst u (scanstring r2)
                        | Pair u2 =>
                            match r2 with
                            | _ :: _ :: _ :: _ :: _ :: _ :: r3 =>
                                cons_fst (join_surrogates u u2) (scanstring r3)
                            | _ => None
                            end
                        end
                      else cons_fst u (scanstring r2)
                  end
              | _ => None
              end
            else
              match simple_escape e with
              | Some x => cons_fst x (scanstring r1)
              | None => None
              end
        end
      else if c <? 32 then None
      else cons_fst c (scanstring r)
  end.

(** The longest run of decimal digits at the head of a text. *)
Fixpoint span_digits (s : text) : text * text :=
  match s with
  | c :: r =>
      if is_digit c then let (ds, rest) := span_digits r in (c :: ds, rest)
      else ([], s)
  | [] => ([], [])
  end.

(** The value of a run of decimal digits, most significant first. *)
Definition digits_value (ds : text) : N :=
  fold_left (fun acc c => acc * 10 + (c - 48)) ds 0.

(** The integer part of a number: [0], or a non-zero digit and more digits. *)
Definition lex_int_part (s : text) : option (text * text) :=
  match s with
  | c :: r =>
      if c =? 48 then Some ([c], r)
      else if is_digit c then let (ds, rest) := span_digits r in Some (c :: ds, rest)
      else None
  | [] => None
  end.

(** An optional fraction: a dot and at least one digit. *)
Definition lex_frac (s : text) : text * text :=
  match s with
  | p :: d :: r =>
      if (p =? DOT) && is_digit d
      then let (ds, rest) := span_digits r in (p :: d :: ds, rest)
      else ([], s)
  | _ => ([], s)
  end.

(** An optional exponent: [e] or [E], an optional sign, at least one digit. *)
Definition lex_exp (s : text) : text * text :=
  match s with
  | e :: r =>
      if (e =? 101) || (e =? 69) then
        match r with
        | g :: r' =>
            if (g =? PLUS) || (g =? MINUS) then
              match span_digits r' with
              | ([], _) => ([], s)
              | (ds, rest) => (e :: g :: ds, rest)
              end
            else
              match span_digits r with
              | ([], _) => ([], s)
              | (ds, rest) => (e :: ds, rest)
              end
        | [] => ([], s)
        end
      else ([], s)
  | [] => ([], s)
  end.

(** An optional minus sign. *)
Definition lex_sign (s : text) : text * text :=
  match s with
  | c :: r => if c =? MINUS then ([c], r) else ([], s)
  | [] => ([], s)
  end.

(** [_match_number]: an int when there is neither fraction nor exponent. *)
Definition lex_number (s : text) : option (json * text) :=
  let (sign, s1) := lex_sign s in
  match lex_int_part s1 with
  | None => None
  | Some (ip, s2) =>
      let (fr, s3) := lex_frac s2 in
      let (ex, s4) := lex_exp s3 in
      match fr, ex with
      | [], [] =>
          let n := Z.of_N (digits_value ip) in
          Some (JInt (match sign with [] => n | _ => Z.opp n end), s4)
      | _, _ => Some (JFloat (sign ++ ip ++ fr ++ ex), s4)
      end
  end.

(** [s] begins with the word [w]: the rest of [s]. *)
Fixpoint expect (w s : text) : option text :=
  match w, s with
  | [], _ => Some s
  | x :: w', y :: s' => if x =? y then expect w' s' else None
  | _ :: _, [] => None
  end.

Definition NULL_LIT : text := Eval cbv in txt "null".
Definition TRUE_LIT : text := Eval cbv in txt "true".
Definition FALSE_LIT : text := Eval cbv in txt "false".
Definition NAN_LIT : text := Eval cbv in txt "NaN".
Definition INF_LIT : text := Eval cbv in txt "Infinity".
Definition NEG_INF_LIT : text := Eval cbv in txt "-Infinity".

Definition lex_const (w : text) (v : json) (s : text) : option (json * text) :=
  match expect w s with
  | Some rest => Some (v, rest)
  | None => None
  end.

(** [scan_once] with the object and array loops of the scanner.  Every call
    consumes a character before it calls again, so the length of the text is
    fuel enough. *)
Fixpoint scan_once (fuel : nat) (s : text) : option (json * text) :=
  match fuel with
  | O => None
  | S f =>
      match s with
      | [] => None
      | c :: r =>
          if c =? QUOTE then
            match scanstring r with
            | Some (str, rest) => Some (JStr str, rest)
            | None => None
            end
          else if c =? LBRACE then
            match skip_ws r with
            | c' :: r' =>
                if c' =? RBRACE then Some (JObj [], r')
                else parse_members f (c' :: r') []
            | [] => None
            end
          else if c =? LBRACKET then
            match skip_ws r with
            | c' :: r' =>
                if c' =? RBRACKET then Some (JArr [], r')
                else parse_elements f (c' :: r') []
            | [] => None
            end
          else if c =? 110 then lex_const NULL_LIT JNull s
          else if c =? 116 then lex_const TRUE_LIT (JBool true) s
          else if c =? 102 then lex_const FALSE_LIT (JBool false) s
          else if c =? 78 then lex_const NAN_LIT (JFloat NAN_LIT) s
          else if c =? 73 then lex_const INF_LIT (JFloat INF_LIT) s
          else if c =? MINUS then
            match expect NEG_INF_LIT s with
            | Some rest => Some (JFloat NEG_INF_LIT, rest)
            | None => lex_number s
            end
          else lex_number s
      end
  end

(** The members of an object from the first key on; [acc] is the dict built
    so far. *)
with parse_members (fuel : nat) (s : text) (acc : dict) : option (json * text) :=
  match fuel with
  | O => None
  | S f =>
      match s with
      | q :: r =>
          if q =? QUOTE then
            match scanstring r with
            | Some (key, r1) =>
                match skip_ws r1 with
                | c :: r2 =>
                    if c =? COLON then
                      match scan_once f (skip_ws r2) with
                      | Some (v, r3) =>
                          match skip_ws r3 with
                          | d :: r4 =>
                              if d =? RBRACE then Some (JObj (dict_set key v acc), r4)
                              else if d =? COMMA
                                   then parse_members f (skip_ws r4) (dict_set key v acc)
                                   else None
                          | [] => None
                          end
                      | None => None
                      end
                    else None
                | [] => None
                end
            | None => None
            end
          else None
      | [] => None
      end
  end

(** The elements of an array from the first one on; [acc] holds the
    elements read so far, last first. *)
with parse_elements (fuel : nat) (s : text) (acc : list json) : option (json * text) :=
  match fuel with
  | O => None
  | S f =>
      match scan_once f s with
      | Some (v, r1) =>
          match skip_ws r1 with
          | d :: r2 =>
              if d =? RBRACKET then Some (JArr (rev (v :: acc)), r2)
              else if d =? COMMA then parse_elements f (skip_ws r2) (v :: acc)
              else None
          | [] => None
          end
      | None => None
      end
  end.

(** [JSONDecoder.decode]: one value, white space around it, nothing else. *)
Definition decode (s : text) : option json :=
  match scan_once (S (length s)) (skip_ws s) with
  | Some (v, rest) =>
      match skip_ws rest with
      | [] => Some v
      | _ :: _ => None
      end
  | None => None
  end.

(** *** The encoder, with [ensure_ascii=False] *)

Definition hex_digit (n : N) : N := if n <? 10 then 48 + n else 87 + n.

(** One character inside a string literal: quote, backslash and the
    control characters are escaped, everything else is written as it is. *)
Definition escape_char (c : N) : text :=
  if c =? QUOTE then [BACKSLASH; QUOTE]
  else if c =? BACKSLASH then [BACKSLASH; BACKSLASH]
  else if c =? 10 then [BACKSLASH; 110]
  else if c =? 13 then [BACKSLASH; 114]
  else if c =? 9 then [BACKSLASH; 116]
  else if c =? 8 then [BACKSLASH; 98]
  else if c =? 12 then [BACKSLASH; 102]
  else if c <? 32 then [BACKSLASH; 117; 48; 48; hex_digit (c / 16); hex_digit (c mod 16)]
  else [c].

Definition encode_string (s : text) : text :=
  QUOTE :: flat_map escape_char s ++ [QUOTE].

Fixpoint N_digits_fuel (fuel : nat) (n : N) : text :=
  match fuel with
  | O => []
  | S f =>
      if n <? 10 then [48 + n]
      else N_digits_fuel f (n / 10) ++ [48 + n mod 10]
  end.

(** [str(n)] for a natural number. *)
Definition N_digits (n : N) : text :=
  N_digits_fuel (S (N.to_nat (N.log2 n))) n.

(** [str(z)] for an int. *)
Definition Z_digits (z : Z) : text :=
  match z with
  | Zneg p => MINUS :: N_digits (Npos p)
  | _ => N_digits (Z.to_N z)
  end.

(** [sep.join(parts)] *)
Fixpoint join (sep : text) (parts : list text) : text :=
  match parts with
  | [] => []
  | [p] => p
  | p :: ps => p ++ sep ++ join sep ps
  end.

(** ['\n' + indent * level], or nothing when there is no indent. *)
Definition newline_indent (indent : option text) (level : nat) : text :=
  match indent with
  | Some unit => NEWLINE :: concat (repeat unit level)
  | None => []
  end.

(** [JSONEncoder.encode]: [item_sep] and [key_sep] are the separators,
    [indent] the indentation unit of one level when there is one. *)
Fixpoint encode (item_sep key_sep : text) (indent : option text)
    (level : nat) (v : json) : text :=
  match v with
  | JNull => NULL_LIT
  | JBool true => TRUE_LIT
  | JBool false => FALSE_LIT
  | JInt z => Z_digits z
  | JFloat lit => lit
  | JStr s => encode_string s
  | JArr [] => [LBRACKET; RBRACKET]
  | JArr items =>
      [LBRACKET] ++ newline_indent indent (S level)
      ++ join (item_sep ++ newline_indent indent (S level))
              (map (encode item_sep key_sep indent (S level)) items)
      ++ newline_indent indent level ++ [RBRACKET]
  | JObj [] => [LBRACE; RBRACE]
  | JObj members =>
      [LBRACE] ++ newline_indent indent (S level)
      ++ join (item_sep ++ newline_indent indent (S level))
              (map (fun kv => encode_string (fst kv) ++ key_sep
                              ++ encode item_sep key_sep indent (S level) (snd kv))
                   members)
      ++ newline_indent indent level ++ [RBRACE]
  end.

(** [json.dumps(obj, ensure_ascii=False, separators=(',', ':'))] *)
Definition dumps_compact (v : json) : text :=
  encode [COMMA] [COLON] None 0 v.

(** [json.dumps(obj, ensure_ascii=False, indent=indent)]: without an indent
    the separators are [', '] and [': '] and the document stays on one
    line; with one, the item separator is [','] and every level starts a
    line, indented by that many spaces (none for a negative number). *)
Definition dumps_indent (indent : option Z) (v : json) : text :=
  match indent with
  | None => encode [COMMA; SPACE] [COLON; SPACE] None 0 v
  | Some n => encode [COMMA] [COLON; SPACE] (Some (repeat SPACE (Z.to_nat n))) 0 v
  end.

End Json.

Import Json.

(** ** Exceptions and the world outside *)

(** The exceptions the script tells apart.  [SystemExit] is what [sys.exit]
    raises; it is not an [Exception], so [except Exception] lets it pass. *)
Inductive exn : Type :=
| JSONDecodeError
| FileNotFoundError
| OtherError
| SystemExit (status : Z).

Inductive result (A : Type) : Type :=
| Ok (a : A)
| Raise (e : exn).
Arguments Ok {A} a.
Arguments Raise {A} e.

Definition is_JSONDecodeError (e : exn) : bool :=
  match e with JSONDecodeError => true | _ => false end.

(** [isinstance(e, Exception)] *)
Definition is_Exception (e : exn) : bool :=
  match e with SystemExit _ => false | _ => true end.

(** [json.loads]: a value, or [JSONDecodeError]. *)
Definition json_loads (s : text) : result json :=
  match decode s with
  | Some v => Ok v
  | None => Raise JSONDecodeError
  end.

(** What a path names when it is opened for reading. *)
Inductive file : Type :=
| Absent
| Unreadable
| Readable (content : text).

(** [Path(p).exists()] *)
Definition exists_ (f : file) : bool :=
  match f with Absent => false | _ => true end.

(** [open(p, 'r', encoding='utf-8')] and [f.read()] *)
Definition read_text (f : file) : result text :=
  match f with
  | Absent => Raise FileNotFoundError
  | Unreadable => Raise OtherError
  | Readable content => Ok content
  end.

(** The output path: whether it opens for writing, and whether the [k]-th
    write, of the text [t], goes through. *)
Record sink : Type := {
  open_ok : bool;
  write_ok : nat -> text -> bool
}.

(** ** json2jsonl.py *)

(** One attempt of the script:
    [try: obj = json.loads(s); if isinstance(obj, dict): objects.append(obj)]
    [except json.JSONDecodeError: continue].  Another exception goes on. *)
Definition load_dict (s : text) (objects : list dict) : result (list dict) :=
  match json_loads s with
  | Ok (JObj d) => Ok (objects ++ [d])
  | Ok _ => Ok objects
  | Raise e => if is_JSONDecodeError e then Ok objects else Raise e
  end.

(** The mappings among the elements of an array, in order. *)
Fixpoint dict_items (items : list json) (objects : list dict) : list dict :=
  match items with
  | [] => objects
  | JObj d :: rest => dict_items rest (objects ++ [d])
  | _ :: rest => dict_items rest objects
  end.

(** The loop over the lines. *)
Fixpoint parse_lines (lines : list text) (objects : list dict) : result (list dict) :=
  match lines with
  | [] => Ok objects
  | line :: rest =>
      match strip line with
      | [] => parse_lines rest objects
      | c :: l =>
          match load_dict (c :: l) objects with
          | Ok objects' => parse_lines rest objects'
          | Raise e => Raise e
          end
      end
  end.

(** The brace-counting loop over [enumerate(content)]: [rest] is what is
    left to read and [i] its index in [content].  The loop sits in a
    [try] whose [except Exception: pass] ends it at any exception that is
    not a [JSONDecodeError], with the objects found so far. *)
Fixpoint scan_braces (content rest : text) (i : nat) (brace_count : Z)
    (start_pos : nat) (objects : list dict) : result (list dict) :=
  match rest with
  | [] => Ok objects
  | char :: rest' =>
      if char =? LBRACE then
        scan_braces content rest' (S i) (brace_count + 1)
          (if (brace_count =? 0)%Z then i else start_pos) objects
      else if char =? RBRACE then
        if (brace_count - 1 =? 0)%Z then
          match load_dict (slice content start_pos (i + 1)) objects with
          | Ok objects' => scan_braces content rest' (S i) (brace_count - 1) start_pos objects'
          | Raise e => if is_Exception e then Ok objects else Raise e
          end
        else scan_braces content rest' (S i) (brace_count - 1) start_pos objects
      else scan_braces content rest' (S i) brace_count start_pos objects
  end.

(** The blocks of the outer [try], one per strategy.  A block gives [Some r]
    when it ends the function, by [return] or by an exception that it does
    not catch, and [None] when control goes on to the next block. *)

(** [try: obj = json.loads(content); if isinstance(obj, dict): ... return]
    [except json.JSONDecodeError: pass] *)
Definition try_single (content : text) : option (result (list dict)) :=
  match json_loads content with
  | Ok (JObj d) => Some (Ok [d])
  | Ok _ => None
  | Raise e => if is_JSONDecodeError e then None else Some (Raise e)
  end.

(** [try: obj = json.loads(content); if isinstance(obj, list): ... return]
    [except json.JSONDecodeError: pass] *)
Definition try_array (content : text) : option (result (list dict)) :=
  match json_loads content with
  | Ok (JArr items) => Some (Ok (dict_items items []))
  | Ok _ => None
  | Raise e => if is_JSONDecodeError e then None else Some (Raise e)
  end.

(** The loop over [content.split('\n')], then [if objects: return objects]. *)
Definition try_lines (content : text) : option (result (list dict)) :=
  match parse_lines (split_lines content) [] with
  | Ok [] => None
  | Ok objects => Some (Ok objects)
  | Raise e => Some (Raise e)
  end.

(** The brace scan; after it the function returns [objects]. *)
Definition try_concatenated (content : text) : result (list dict) :=
  scan_braces content content 0 0%Z 0 [].

(** The four strategies on the stripped content, in the order of the code. *)
Definition parse_content (content : text) : result (list dict) :=
  match try_single content with
  | Some r => r
  | None =>
      match try_array content with
      | Some r => r
      | None =>
          match try_lines content with
          | Some r => r
          | None => try_concatenated content
          end
      end
  end.

(** [parse_json_file(file_path)], [f] being what the path names. *)
Definition parse_json_file (f : file) : result (list dict) :=
  match (match read_text f with
         | Ok raw => parse_content (strip raw)
         | Raise e => Raise e
         end) with
  | Ok objects => Ok objects
  | Raise FileNotFoundError => Raise (SystemExit 1)
  | Raise e => if is_Exception e then Raise (SystemExit 1) else Raise e
  end.

(** The loop of the writer: the text written so far, the number of writes
    done, and how the loop ends. *)
Fixpoint write_records (s : sink) (pretty : bool) (indent : option Z)
    (objects : list dict) (k : nat) (written : text) : text * result unit :=
  match objects with
  | [] => (written, Ok tt)
  | obj :: rest =>
      let json_str := if pretty then dumps_indent indent (JObj obj)
                      else dumps_compact (JObj obj) in
      let line := json_str ++ [NEWLINE] in
      if write_ok s k line then write_records s pretty indent rest (S k) (written ++ line)
      else (written, Raise OtherError)
  end.

(** [write_jsonl_file(objects, output_path, pretty, indent)]: what the
    output file holds afterwards ([None] when it was never opened) and how
    the call ends. *)
Definition write_jsonl_file (objects : list dict) (s : sink) (pretty : bool)
    (indent : option Z) : option text * result unit :=
  if open_ok s then
    match write_records s pretty indent objects 0 [] with
    | (written, Ok _) => (Some written, Ok tt)
    | (written, Raise e) =>
        (Some written, if is_Exception e then Raise (SystemExit 1) else Raise e)
    end
  else (None, Raise (SystemExit 1)).

(** The parsed command line. *)
Record args : Type := {
  arg_pretty : bool;
  arg_indent : Z;
  arg_verbose : bool
}.

(** [main()]: input file, output sink, arguments. *)
Definition main (a : args) (input : file) (output : sink) : option text * result unit :=
  if negb (exists_ input) then (None, Raise (SystemExit 1))
  else
    match parse_json_file input with
    | Raise e => (None, Raise e)
    | Ok [] => (None, Raise (SystemExit 1))
    | Ok objects =>
        write_jsonl_file objects output (arg_pretty a)
          (if arg_pretty a then Some (arg_indent a) else None)
    end.


(** ** gen.py *)

Module Gen.

(** *** Strings and paths *)

(** [s.startswith(prefix)] *)
Fixpoint startswith (s prefix : text) : bool :=
  match prefix, s with
  | [], _ => true
  | p :: prefix', c :: s' => (c =? p) && startswith s' prefix'
  | _ :: _, [] => false
  end.

(** [s.endswith(suffix)] *)
Definition endswith (s suffix : text) : bool :=
  startswith (rev s) (rev suffix).

(** [s.split(sep)] for a separator of one character. *)
Fixpoint split_on (sep : N) (s : text) : list text :=
  match s with
  | [] => [[]]
  | c :: r =>
      if c =? sep then [] :: split_on sep r
      else match split_on sep r with
           | l :: ls => (c :: l) :: ls
           | [] => [[c]]
           end
  end.

(** [s.rfind(c)]: the index of the last [c], when there is one. *)
Fixpoint rfind (c : N) (s : text) : option nat :=
  match s with
  | [] => None
  | x :: r =>
      match rfind c r with
      | Some i => Some (S i)
      | None => if x =? c then Some 0%nat else None
      end
  end.

(** [os.path.join(a, b)], POSIX flavour. *)
Definition path_join (a b : text) : text :=
  if startswith b [SLASH] then b
  else match a with
       | [] => b
       | _ => if endswith a [SLASH] then a ++ b else a ++ SLASH :: b
       end.

(** [Path(p).name], POSIX flavour: the last component of the path, the
    empty components and the components [.] left out. *)
Definition path_name (p : text) : text :=
  last (filter (fun x => negb (text_eqb x []) && negb (text_eqb x [DOT]))
               (split_on SLASH p)) [].

(** [Path(p).suffix]: the name from its last dot on, unless that dot opens
    or ends the name. *)
Definition suffix (p : text) : text :=
  let name := path_name p in
  match rfind DOT name with
  | Some i =>
      if ((0 <? i) && (i <? length name - 1))%nat then skipn i name else []
  | None => []
  end.

(** *** Values and dicts *)

(** The values the script handles: [None], a [str], the list of the extra
    fields of a CSV record, and a dict of strings. *)
Inductive value : Type :=
| VNone
| VStr (s : text)
| VList (l : list text)
| VDict (d : list (text * text)).

(** A dict key of the script: a [str], or [None]. *)
Definition key_eqb (a b : option text) : bool :=
  match a, b with
  | Some x, Some y => text_eqb x y
  | None, None => true
  | _, _ => false
  end.

(** [d.get(k)] on a dict that keeps insertion order. *)
Fixpoint getitem {K V : Type} (eqb : K -> K -> bool) (k : K) (d : list (K * V))
    : option V :=
  match d with
  | [] => None
  | (k', v) :: d' => if eqb k' k then Some v else getitem eqb k d'
  end.

(** [d[k] = v] *)
Fixpoint setitem {K V : Type} (eqb : K -> K -> bool) (k : K) (v : V)
    (d : list (K * V)) : list (K * V) :=
  match d with
  | [] => [(k, v)]
  | (k', v') :: d' =>
      if eqb k' k then (k', v) :: d' else (k', v') :: setitem eqb k v d'
  end.

(** What [json.dumps] sees of a value, and of an entry. *)
Definition to_json (v : value) : json :=
  match v with
  | VNone => JNull
  | VStr s => JStr s
  | VList l => JArr (map JStr l)
  | VDict d => JObj (map (fun kv => (fst kv, JStr (snd kv))) d)
  end.

Definition entry_json (entry : list (text * value)) : dict :=
  map (fun kv => (fst kv, to_json (snd kv))) entry.

(** *** The world outside *)

(** What the path of the CSV file names: no file, a file that does not
    open, or a file; [records] are the records that [csv.reader] yields, in
    order, until it stops, at the end of the file or at an exception. *)
Inductive csv_file : Type :=
| CsvAbsent
| CsvUnreadable
| CsvRecords (records : list (list text)).

(** What the script gets from the interpreter and from the machine:
    whether Pillow was imported, [str.lower], and, for a path,
    [os.path.exists], [os.path.isdir], [os.listdir] ([None] when it
    raises), the width and the height of the image it names ([None] when
    [Image.open] raises) and the CSV file it names. *)
Record world : Type := {
  PIL_AVAILABLE : bool;
  lower : text -> text;
  path_exists : text -> bool;
  isdir : text -> bool;
  listdir : text -> option (list text);
  image_size : text -> option (Z * Z);
  open_csv : text -> csv_file
}.

(** *** load_labels_from_csv *)

(** The dict that [csv.DictReader] makes of a record: the field names
    zipped with the fields, the extra fields under the key [None], [None]
    for the fields that are missing. *)
Definition row_dict (fieldnames record : list text) : list (option text * value) :=
  let d := fold_left (fun d kv => setitem key_eqb (Some (fst kv)) (VStr (snd kv)) d)
                     (combine fieldnames record) [] in
  let lf := length fieldnames in
  let lr := length record in
  if (lf <? lr)%nat then setitem key_eqb None (VList (skipn lf record)) d
  else if (lr <? lf)%nat then
    fold_left (fun d k => setitem key_eqb (Some k) VNone d) (skipn lr fieldnames) d
  else d.

(** The loop over the rows of the reader, which skips the empty records.
    It sits in a [try] whose [except Exception] ends it at the first
    exception, a [KeyError] for a column that the row does not have or a
    [TypeError] for a key that cannot be hashed, with the labels read so
    far. *)
Fixpoint load_rows (fieldnames : list text) (records : list (list text))
    (labels : list (option text * list (text * value)))
    : list (option text * list (text * value)) :=
  match records with
  | [] => labels
  | [] :: rest => load_rows fieldnames rest labels
  | record :: rest =>
      let row := row_dict fieldnames record in
      match getitem key_eqb (Some (txt "image_path")) row,
            getitem key_eqb (Some (txt "temperature_class")) row,
            getitem key_eqb (Some (txt "temperature_value")) row,
            getitem key_eqb (Some (txt "timestamp")) row with
      | Some image_path, Some temperature_class, Some temperature_value, Some timestamp =>
          let label_info := [(txt "temperature_class", temperature_class);
                             (txt "temperature_value", temperature_value);
                             (txt "timestamp", timestamp)] in
          match image_path with
          | VStr p => load_rows fieldnames rest (setitem key_eqb (Some p) label_info labels)
          | VNone => load_rows fieldnames rest (setitem key_eqb None label_info labels)
          | _ => labels
          end
      | _, _, _, _ => labels
      end
  end.

(** [load_labels_from_csv(csv_path)]: the first record of the file gives
    the field names. *)
Definition load_labels_from_csv (w : world) (csv_path : text)
    : list (option text * list (text * value)) :=
  match open_csv w csv_path with
  | CsvAbsent => []
  | CsvUnreadable => []
  | CsvRecords [] => []
  | CsvRecords (fieldnames :: records) => load_rows fieldnames records []
  end.

(** *** get_image_details *)

Definition format_map : list (text * text) :=
  [(txt ".png", txt "png"); (txt ".jpg", txt "jpeg"); (txt ".jpeg", txt "jpeg");
   (txt ".gif", txt "gif"); (txt ".bmp", txt "bmp"); (txt ".tiff", txt "tiff");
   (txt ".tif", txt "tiff")].

(** [get_image_details(image_path, dataset_dir)] *)
Definition get_image_details (w : world) (image_path dataset_dir : text)
    : list (text * text) :=
  let file_ext := lower w (suffix image_path) in
  let image_format :=
    match getitem text_eqb file_ext format_map with
    | Some f => f
    | None => txt "unknown"
    end in
  let size :=
    if PIL_AVAILABLE w && negb (text_eqb dataset_dir []) then
      match image_size w (path_join dataset_dir image_path) with
      | Some (width, height) => (Z_digits width, Z_digits height)
      | None => (txt "unknown", txt "unknown")
      end
    else (txt "unknown", txt "unknown") in
  [(txt "format", image_format);
   (txt "width", fst size ++ txt "px");
   (txt "height", snd size ++ txt "px")].

(** *** scan_dataset_directory *)

Definition image_suffixes : list text :=
  [txt ".png"; txt ".jpg"; txt ".jpeg"; txt ".gif"; txt ".bmp"; txt ".tiff"; txt ".tif"].

(** [filename.lower().endswith(('.png', ...))] *)
Definition is_image (w : world) (filename : text) : bool :=
  existsb (endswith (lower w filename)) image_suffixes.

(** The inner loop, over the names in one subdirectory. *)
Fixpoint scan_files (w : world) (subdir : text) (filenames : list text)
    (files : list (text * text)) : list (text * text) :=
  match filenames with
  | [] => files
  | filename :: rest =>
      if is_image w filename then scan_files w subdir rest (files ++ [(subdir, filename)])
      else scan_files w subdir rest files
  end.

(** The outer loop, over the names in the dataset directory.  The [try]
    around it ends it at the first listing that raises, with the files
    found so far. *)
Fixpoint scan_subdirs (w : world) (dataset_dir : text) (subdirs : list text)
    (files : list (text * text)) : list (text * text) :=
  match subdirs with
  | [] => files
  | subdir :: rest =>
      let subdir_path := path_join dataset_dir subdir in
      if isdir w subdir_path && negb (startswith subdir [DOT]) then
        match listdir w subdir_path with
        | Some filenames =>
            scan_subdirs w dataset_dir rest (scan_files w subdir filenames files)
        | None => files
        end
      else scan_subdirs w dataset_dir rest files
  end.

(** [scan_dataset_directory(dataset_dir)] *)
Definition scan_dataset_directory (w : world) (dataset_dir : text)
    : list (text * text) :=
  match listdir w dataset_dir with
  | Some subdirs => scan_subdirs w dataset_dir subdirs []
  | None => []
  end.

(** *** generate_jsonl_entries *)

(** [d.get(k, default)] *)
Definition get_default {V : Type} (k : text) (d : list (text * V)) (default : V) : V :=
  match getitem text_eqb k d with
  | Some v => v
  | None => default
  end.

(** The body of the loop: the entry of one file. *)
Definition generate_entry (w : world)
    (labels : list (option text * list (text * value)))
    (base_url dataset_dir : text) (file : text * text) : list (text * value) :=
  let (subdir, filename) := file in
  let relative_path := subdir ++ SLASH :: filename in
  let image_url := base_url ++ txt "boiler_dataset/" ++ relative_path in
  let label_info :=
    match getitem key_eqb (Some relative_path) labels with
    | Some info => info
    | None => []
    end in
  let temperature_class := get_default (txt "temperature_class") label_info (VStr (txt "unknown")) in
  let temperature_value := get_default (txt "temperature_value") label_info (VStr (txt "0.0")) in
  let timestamp := get_default (txt "timestamp") label_info (VStr []) in
  let image_details := get_image_details w relative_path dataset_dir in
  [(txt "image_url", VStr image_url);
   (txt "image_details", VDict image_details);
   (txt "label", temperature_class);
   (txt "temperature_value", temperature_value);
   (txt "timestamp", timestamp);
   (txt "relative_path", VStr relative_path)].

(** [generate_jsonl_entries(files, labels, base_url, dataset_dir)] *)
Fixpoint generate_jsonl_entries (w : world) (files : list (text * text))
    (labels : list (option text * list (text * value)))
    (base_url dataset_dir : text) : list (list (text * value)) :=
  match files with
  | [] => []
  | file :: rest =>
      generate_entry w labels base_url dataset_dir file
      :: generate_jsonl_entries w rest labels base_url dataset_dir
  end.

(** *** write_jsonl_file *)

(** [write_jsonl_file(entries, output_path, pretty)] of the generator: the
    same loop, with [indent=2] when pretty; its [except] only prints the
    error, so the call returns in every case. *)
Definition write_jsonl_file (entries : list dict) (s : sink) (pretty : bool)
    : option text * result unit :=
  if open_ok s then
    match write_records s pretty (Some 2%Z) entries 0 [] with
    | (written, _) => (Some written, Ok tt)
    end
  else (None, Ok tt).

(** *** main *)

(** The parsed command line. *)
Record options : Type := {
  opt_dataset_dir : text;
  opt_csv_file : text;
  opt_base_url : text;
  opt_pretty : bool;
  opt_verbose : bool
}.

(** The loop that counts the entries by label:
    [class_counts[label] = class_counts.get(label, 0) + 1].  A label that
    is no [str] and not [None] cannot be hashed; an entry without label
    raises as well. *)
Fixpoint count_classes (entries : list (list (text * value)))
    (class_counts : list (option text * nat)) : result (list (option text * nat)) :=
  match entries with
  | [] => Ok class_counts
  | entry :: rest =>
      let count label :=
        match getitem key_eqb label class_counts with
        | Some n => n
        | None => 0%nat
        end in
      match getitem text_eqb (txt "label") entry with
      | Some (VStr s) =>
          count_classes rest (setitem key_eqb (Some s) (count (Some s) + 1)%nat class_counts)
      | Some VNone =>
          count_classes rest (setitem key_eqb None (count None + 1)%nat class_counts)
      | _ => Raise OtherError
      end
  end.

(** [sorted(class_counts.items())] returns unless it has to compare [None]
    with a [str], which it has to when there are two labels or more and
    [None] is one of them. *)
Definition sorted_returns (class_counts : list (option text * nat)) : bool :=
  match class_counts with
  | [] => true
  | [_] => true
  | _ => forallb (fun kc => match fst kc with Some _ => true | None => false end)
                 class_counts
  end.

(** [main()]: what the output file holds afterwards ([None] when it was
    never opened) and the value that [main] returns, which is the exit
    status of the script. *)
Definition main (w : world) (a : options) (output : sink) : option text * result Z :=
  if negb (path_exists w (opt_dataset_dir a)) then (None, Ok 1%Z)
  else
    let labels := load_labels_from_csv w (opt_csv_file a) in
    let files := scan_dataset_directory w (opt_dataset_dir a) in
    match files with
    | [] => (None, Ok 1%Z)
    | _ =>
        let entries :=
          generate_jsonl_entries w files labels (opt_base_url a) (opt_dataset_dir a) in
        let written := fst (write_jsonl_file (map entry_json entries) output (opt_pretty a)) in
        match count_classes entries [] with
        | Ok class_counts =>
            if sorted_returns class_counts then (written, Ok 0%Z)
            else (written, Raise OtherError)
        | Raise e => (written, Raise e)
        end
    end.

End Gen.

(** ** Reference notions *)

(** The mapping elements of an array, in their order. *)
Definition mapping_elements (items : list json) : list dict :=
  flat_map (fun v => match v with JObj d => [d] | _ => [] end) items.

Definition is_mapping (v : json) : bool :=
  match v with JObj _ => true | _ => false end.

(** The records one text gives when it is decoded on its own: the mapping
    it denotes, or nothing. *)
Definition text_records (s : text) : list dict :=
  match decode s with
  | Some (JObj d) => [d]
  | _ => []
  end.

(** The records of one line: blank lines give none. *)
Definition line_records (line : text) : list dict :=
  match strip line with
  | [] => []
  | c :: l => text_records (c :: l)
  end.

(** The candidate object texts of the brace scan, in the order the loop
    meets them: the same walk as [scan_braces], without the decoding. *)
Fixpoint candidates (content rest : text) (i : nat) (brace_count : Z)
    (start_pos : nat) : list text :=
  match rest with
  | [] => []
  | char :: rest' =>
      if char =? LBRACE then
        candidates content rest' (S i) (brace_count + 1)
          (if (brace_count =? 0)%Z then i else start_pos)
      else if char =? RBRACE then
        if (brace_count - 1 =? 0)%Z then
          slice content start_pos (i + 1)
            :: candidates content rest' (S i) (brace_count - 1) start_pos
        else candidates content rest' (S i) (brace_count - 1) start_pos
      else candidates content rest' (S i) brace_count start_pos
  end.

(** The lines the writer emits, one per record. *)
Definition record_line (pretty : bool) (indent : option Z) (obj : dict) : text :=
  (if pretty then dumps_indent indent (JObj obj) else dumps_compact (JObj obj))
  ++ [NEWLINE].

(** Every write of these lines, in order, goes through. *)
Fixpoint all_written (s : sink) (k : nat) (lines : list text) : bool :=
  match lines with
  | [] => true
  | line :: rest => write_ok s k line && all_written s (S k) rest
  end.

(** ** The texts the scanner accepts

    The shape of the text that [scan_once] consumes for a value.  It is the
    bridge between the scanner, the encoder and the brace scan. *)

Definition all_ws (w : text) : Prop := forallb is_ws w = true.

(** Only characters that [str.strip()] removes. *)
Definition all_space (w : text) : Prop := forallb py_isspace w = true.

Definition all_digits (ds : text) : Prop := forallb is_digit ds = true.

(** What may follow a number without changing how it is read: the end of
    the text, or a character that continues neither digits, fraction nor
    exponent. *)
Definition delim_start (x : text) : bool :=
  match x with
  | [] => true
  | c :: _ => negb (is_digit c || (c =? DOT) || (c =? 101) || (c =? 69))
  end.

(** The head of [x] is no digit. *)
Definition no_digit_head (x : text) : Prop :=
  match x with [] => True | c :: _ => is_digit c = false end.

(** The head of [y] is neither a digit nor a dot. *)
Definition no_frac_head (y : text) : Prop :=
  match y with [] => True | c :: _ => is_digit c = false /\ c <> DOT end.

Definition int_part (ip : text) : Prop :=
  ip = [48] \/
  exists d ds, ip = d :: ds /\ is_digit d = true /\ d <> 48 /\ all_digits ds.

Definition frac_part (fr : text) : Prop :=
  fr = [] \/
  exists d ds, fr = DOT :: d :: ds /\ is_digit d = true /\ all_digits ds.

Definition exp_part (ex : text) : Prop :=
  ex = [] \/
  exists e sg d ds,
    ex = e :: sg ++ d :: ds /\ (e = 101 \/ e = 69)
    /\ (sg = [] \/ sg = [PLUS] \/ sg = [MINUS])
    /\ is_digit d = true /\ all_digits ds.

(** The value of a number literal made of these four parts. *)
Definition number_value (sign ip fr ex : text) : json :=
  match fr, ex with
  | [], [] =>
      let n := Z.of_N (digits_value ip) in
      JInt (match sign with [] => n | _ => Z.opp n end)
  | _, _ => JFloat (sign ++ ip ++ fr ++ ex)
  end.

Inductive number_text : json -> text -> Prop :=
| NT_number sign ip fr ex :
    sign = [] \/ sign = [MINUS] ->
    int_part ip -> frac_part fr -> exp_part ex ->
    number_text (number_value sign ip fr ex) (sign ++ ip ++ fr ++ ex).

Inductive const_text : json -> text -> Prop :=
| CT_null : const_text JNull NULL_LIT
| CT_true : const_text (JBool true) TRUE_LIT
| CT_false : const_text (JBool false) FALSE_LIT
| CT_nan : const_text (JFloat NAN_LIT) NAN_LIT
| CT_inf : const_text (JFloat INF_LIT) INF_LIT
| CT_neg_inf : const_text (JFloat NEG_INF_LIT) NEG_INF_LIT.

(** [b] is the rest of a string literal after its opening quote, closing
    quote included, and [str] what it denotes. *)
Definition string_lit (str b : text) : Prop :=
  forall x, scanstring (b ++ x) = Some (str, x).

Inductive value_text : json -> text -> Prop :=
| VT_string str b :
    string_lit str b -> value_text (JStr str) (QUOTE :: b)
| VT_number v c :
    number_text v c -> value_text v c
| VT_const v c :
    const_text v c -> value_text v c
| VT_empty_object w :
    all_ws w -> value_text (JObj []) (LBRACE :: w ++ [RBRACE])
| VT_object w d c :
    all_ws w -> members_text [] d c -> value_text (JObj d) (LBRACE :: w ++ c)
| VT_empty_array w :
    all_ws w -> value_text (JArr []) (LBRACKET :: w ++ [RBRACKET])
| VT_array w l c :
    all_ws w -> elements_text [] l c -> value_text (JArr l) (LBRACKET :: w ++ c)

(** The members of an object from the first key to the closing brace;
    [acc] is the dict before them, [d] the dict after. *)
with members_text : dict -> dict -> text -> Prop :=
| MT_last acc key b w1 w2 v c w3 :
    string_lit key b -> all_ws w1 -> all_ws w2 -> value_text v c -> all_ws w3 ->
    members_text acc (dict_set key v acc)
      (QUOTE :: b ++ w1 ++ COLON :: w2 ++ c ++ w3 ++ [RBRACE])
| MT_more acc key b w1 w2 v c w3 w4 d rest :
    string_lit key b -> all_ws w1 -> all_ws w2 -> value_text v c -> all_ws w3 ->
    all_ws w4 -> members_text (dict_set key v acc) d rest ->
    members_text acc d
      (QUOTE :: b ++ w1 ++ COLON :: w2 ++ c ++ w3 ++ COMMA :: w4 ++ rest)

(** The elements of an array from the first one to the closing bracket;
    [acc] holds the elements before them, last first. *)
with elements_text : list json -> list json -> text -> Prop :=
| ET_last acc v c w :
    value_text v c -> all_ws w ->
    elements_text acc (rev (v :: acc)) (c ++ w ++ [RBRACKET])
| ET_more acc v c w1 w2 l rest :
    value_text v c -> all_ws w1 -> all_ws w2 ->
    elements_text (v :: acc) l rest ->
    elements_text acc l (c ++ w1 ++ COMMA :: w2 ++ rest).

Scheme value_text_mut := Minimality for value_text Sort Prop
  with members_text_mut := Minimality for members_text Sort Prop
  with elements_text_mut := Minimality for elements_text Sort Prop.
Combined Scheme value_text_mutind
  from value_text_mut, members_text_mut, elements_text_mut.

(** ** Braces and string literals in a text *)

Definition is_brace (c : N) : bool := (c =? LBRACE) || (c =? RBRACE).

Definition no_braces (s : text) : Prop :=
  forallb (fun c => negb (is_brace c)) s = true.

(** Where a walk over a JSON text stands: outside the string literals,
    inside one, or inside one just after a backslash. *)
Inductive lex_state : Type :=
| Outside
| Inside
| Escaped.

(** No brace character stands inside a string literal of the text, be the
    literal a member name or a value: a walk that only follows the quotes
    and the backslashes. *)
Fixpoint literals_brace_free (st : lex_state) (s : text) : bool :=
  match s with
  | [] => true
  | c :: r =>
      match st with
      | Outside => literals_brace_free (if c =? QUOTE then Inside else Outside) r
      | Inside =>
          if is_brace c then false
          else literals_brace_free
                 (if c =? QUOTE then Outside
                  else if c =? BACKSLASH then Escaped else Inside) r
      | Escaped => if is_brace c then false else literals_brace_free Inside r
      end
  end.

(** The braces of a text match, as a depth counter sees them. *)
Inductive balanced : text -> Prop :=
| balanced_nil : balanced []
| balanced_char c m :
    is_brace c = false -> balanced m -> balanced (c :: m)
| balanced_nest m1 m2 :
    balanced m1 -> balanced m2 -> balanced (LBRACE :: m1 ++ RBRACE :: m2).

(** ** Values as Python holds them *)

(** A float is carried as the text of a literal: one of the three names, or
    a number with a fraction or an exponent. *)
Definition valid_float (lit : text) : bool :=
  text_eqb lit NAN_LIT || text_eqb lit INF_LIT || text_eqb lit NEG_INF_LIT
  || match lex_number lit with
     | Some (JFloat _, []) => true
     | _ => false
     end.

Fixpoint unique_keys (ks : list text) : bool :=
  match ks with
  | [] => true
  | k :: rest => negb (existsb (text_eqb k) rest) && unique_keys rest
  end.

(** The invariants of a Python value: the keys of a dict are pairwise
    different and a float is a float. *)
Fixpoint well_formed (v : json) : bool :=
  match v with
  | JFloat lit => valid_float lit
  | JArr items => forallb well_formed items
  | JObj members =>
      unique_keys (map fst members)
      && forallb (fun kv => well_formed (snd kv)) members
  | _ => true
  end.

Definition record_ok (d : dict) : bool := well_formed (JObj d).


(** The subdirectories that the scan of gen.py enters: the directories
    whose name does not start with a dot. *)
Definition entered (w : Gen.world) (dataset_dir subdir : text) : bool :=
  Gen.isdir w (Gen.path_join dataset_dir subdir) && negb (Gen.startswith subdir [DOT]).

(** The scan enters this subdirectory and its listing raises. *)
Definition listing_fails (w : Gen.world) (dataset_dir subdir : text) : bool :=
  entered w dataset_dir subdir
  && match Gen.listdir w (Gen.path_join dataset_dir subdir) with
     | Some _ => false
     | None => true
     end.

(** The image files of one subdirectory, in the order of its listing. *)
Definition subdir_images (w : Gen.world) (dataset_dir subdir : text) : list (text * text) :=
  if entered w dataset_dir subdir then
    match Gen.listdir w (Gen.path_join dataset_dir subdir) with
    | Some filenames => map (pair subdir) (filter (Gen.is_image w) filenames)
    | None => []
    end
  else [].

(** ** An example world

    A small dataset directory, to run the generator on: [str.lower] on
    ASCII names, two subdirectories of images, a hidden one, one that
    cannot be listed and one after it, and a CSV file with a short row. *)

Definition ascii_lower (s : text) : text :=
  map (fun c => if (65 <=? c) && (c <=? 90) then c + 32 else c) s.

Definition example_header : list text :=
  [txt "image_path"; txt "temperature_class"; txt "temperature_value"; txt "timestamp"].

Definition example_world : Gen.world := {|
  Gen.PIL_AVAILABLE := true;
  Gen.lower := ascii_lower;
  Gen.path_exists := fun p =>
    existsb (text_eqb p)
      [txt "data"; txt "data/.cache"; txt "data/hot"; txt "data/labels.csv";
       txt "data/cold"; txt "data/locked"; txt "data/late"];
  Gen.isdir := fun p =>
    existsb (text_eqb p)
      [txt "data"; txt "data/.cache"; txt "data/hot"; txt "data/cold";
       txt "data/locked"; txt "data/late"];
  Gen.listdir := fun p =>
    if text_eqb p (txt "data") then
      Some [txt ".cache"; txt "hot"; txt "labels.csv"; txt "cold"; txt "locked"; txt "late"]
    else if text_eqb p (txt "data/.cache") then Some [txt "x.png"]
    else if text_eqb p (txt "data/hot") then Some [txt "a.png"; txt "notes.txt"; txt "B.JPG"]
    else if text_eqb p (txt "data/cold") then Some [txt "c.tiff"; txt ".png"]
    else if text_eqb p (txt "data/late") then Some [txt "z.gif"]
    else None;
  Gen.image_size := fun p =>
    if text_eqb p (txt "data/hot/a.png") then Some (640%Z, 480%Z) else None;
  Gen.open_csv := fun p =>
    if text_eqb p (txt "data/labels.csv") then
      Gen.CsvRecords
        [example_header;
         [txt "hot/a.png"; txt "high"; txt "91.5"; txt "t1"];
         [];
         [txt "cold/c.tiff"];
         [txt "hot/a.png"; txt "low"; txt "20.0"; txt "t2"]]
    else Gen.CsvAbsent
|}.

(** * Properties *)

(** ** The decoding attempts *)

Lemma json_loads_decode (s : text) :
  json_loads s = match decode s with Some v => Ok v | None => Raise JSONDecodeError end.
Proof. reflexivity. Qed.

Lemma load_dict_records (s : text) (objects : list dict) :
  load_dict s objects = Ok (objects ++ text_records s).
Proof.
  unfold load_dict, text_records, json_loads.
  destruct (decode s) as [v|]; simpl.
  - destruct v; rewrite ?app_nil_r; reflexivity.
  - rewrite app_nil_r; reflexivity.
Qed.

Lemma dict_items_mapping (items : list json) (objects : list dict) :
  dict_items items objects = objects ++ mapping_elements items.
Proof.
  revert objects; induction items as [|v items IH]; intros objects; simpl.
  - now rewrite app_nil_r.
  - destruct v; simpl; rewrite IH; try reflexivity.
    now rewrite <- app_assoc.
Qed.

Lemma parse_lines_records (lines : list text) (objects : list dict) :
  parse_lines lines objects = Ok (objects ++ flat_map line_records lines).
Proof.
  revert objects; induction lines as [|line lines IH]; intros objects; simpl.
  - now rewrite app_nil_r.
  - unfold line_records at 1.
    destruct (strip line) as [|c l].
    + apply IH.
    + rewrite load_dict_records, IH, <- app_assoc. reflexivity.
Qed.

Lemma scan_braces_candidates (content rest : text) (i : nat) (bc : Z)
    (sp : nat) (objects : list dict) :
  scan_braces content rest i bc sp objects
  = Ok (objects ++ flat_map text_records (candidates content rest i bc sp)).
Proof.
  revert i bc sp objects; induction rest as [|c rest IH]; intros i bc sp objects; simpl.
  - now rewrite app_nil_r.
  - destruct (c =? LBRACE); [apply IH|].
    destruct (c =? RBRACE); [|apply IH].
    destruct (bc - 1 =? 0)%Z; [|apply IH].
    rewrite load_dict_records, IH. simpl. now rewrite <- app_assoc.
Qed.

Lemma try_lines_records (content : text) :
  try_lines content
  = match flat_map line_records (split_lines content) with
    | [] => None
    | objects => Some (Ok objects)
    end.
Proof.
  unfold try_lines. rewrite parse_lines_records. simpl.
  destruct (flat_map line_records (split_lines content)); reflexivity.
Qed.

Lemma try_concatenated_records (content : text) :
  try_concatenated content
  = Ok (flat_map text_records (candidates content content 0 0%Z 0)).
Proof.
  unfold try_concatenated. now rewrite scan_braces_candidates.
Qed.

(** The parser as one case distinction on the whole-document parse. *)
Lemma parse_content_cases (content : text) :
  parse_content content
  = match decode content with
    | Some (JObj d) => Ok [d]
    | Some (JArr items) => Ok (mapping_elements items)
    | _ =>
        match flat_map line_records (split_lines content) with
        | [] => Ok (flat_map text_records (candidates content content 0 0%Z 0))
        | objects => Ok objects
        end
    end.
Proof.
  unfold parse_content, try_single, try_array, json_loads.
  rewrite try_lines_records, try_concatenated_records.
  destruct (decode content) as [v|]; simpl.
  - destruct v; simpl; try reflexivity;
      try (destruct (flat_map line_records (split_lines content)); reflexivity).
    now rewrite dict_items_mapping.
  - destruct (flat_map line_records (split_lines content)); reflexivity.
Qed.

(** ** Characters and white space *)

(** Turns boolean tests on characters in the hypotheses into arithmetic. *)
Ltac bool_hyps :=
  repeat match goal with
  | H : _ |- _ =>
      progress (rewrite ?orb_true_iff, ?andb_true_iff, ?orb_false_iff,
                  ?andb_false_iff, ?negb_true_iff, ?negb_false_iff,
                  ?N.eqb_eq, ?N.eqb_neq, ?N.leb_le, ?N.leb_gt, ?N.ltb_lt,
                  ?N.ltb_ge in H)
  end.

(** Decides the boolean tests on characters in the goal by cases. *)
Ltac case_tests :=
  repeat match goal with
  | |- context [?a =? ?b] => destruct (N.eqb_spec a b)
  | |- context [?a <=? ?b] => destruct (N.leb_spec a b)
  | |- context [?a <? ?b] => destruct (N.ltb_spec a b)
  end; cbn [andb orb negb]; try reflexivity; try discriminate; try lia.

Ltac char_facts :=
  unfold is_ws, is_digit, py_isspace, delim_start, QUOTE, PLUS, COMMA, MINUS,
    DOT, SLASH, COLON, LBRACKET, BACKSLASH, RBRACKET, LBRACE, RBRACE, NEWLINE,
    SPACE in *;
  bool_hyps.

Lemma skip_ws_split (s : text) :
  exists w, s = w ++ skip_ws s /\ all_ws w.
Proof.
  induction s as [|c r IH]; simpl.
  - exists []; split; reflexivity.
  - destruct (is_ws c) eqn:E.
    + destruct IH as (w & Hs & Hw). exists (c :: w); split.
      * simpl; congruence.
      * unfold all_ws; simpl. now rewrite E.
    + exists []; split; reflexivity.
Qed.

Lemma skip_ws_head (s : text) :
  match skip_ws s with
  | [] => True
  | c :: _ => is_ws c = false
  end.
Proof.
  induction s as [|c r IH]; simpl; [exact I|].
  destruct (is_ws c) eqn:E; [exact IH | exact E].
Qed.

Lemma skip_ws_app (w y : text) :
  all_ws w -> skip_ws (w ++ y) = skip_ws y.
Proof.
  unfold all_ws. induction w as [|c w IH]; simpl; intros H; [reflexivity|].
  apply andb_true_iff in H as [Hc Hw]. rewrite Hc. auto.
Qed.

Lemma skip_ws_stop (c : N) (r : text) :
  is_ws c = false -> skip_ws (c :: r) = c :: r.
Proof. intros H; simpl; now rewrite H. Qed.

Lemma skip_ws_all (w : text) : all_ws w -> skip_ws w = [].
Proof.
  intros H. rewrite <- (app_nil_r w). now rewrite skip_ws_app.
Qed.

Lemma all_ws_app (a b : text) : all_ws a -> all_ws b -> all_ws (a ++ b).
Proof. unfold all_ws; intros Ha Hb. rewrite forallb_app, Ha, Hb. reflexivity. Qed.

Lemma is_ws_isspace (c : N) : is_ws c = true -> py_isspace c = true.
Proof. intros H. char_facts. case_tests. Qed.

(** ** Numbers *)

Lemma span_digits_split (s ds r : text) :
  span_digits s = (ds, r) -> s = ds ++ r /\ all_digits ds /\ no_digit_head r.
Proof.
  revert ds r; induction s as [|c s IH]; simpl; intros ds r H.
  - inversion H; subst. repeat split.
  - destruct (is_digit c) eqn:E.
    + destruct (span_digits s) as [ds' r'] eqn:E'. inversion H; subst.
      destruct (IH _ _ eq_refl) as (-> & Hd & Hr).
      repeat split; auto. unfold all_digits; simpl. now rewrite E.
    + inversion H; subst. repeat split. exact E.
Qed.

Lemma span_digits_app (ds x : text) :
  all_digits ds -> no_digit_head x -> span_digits (ds ++ x) = (ds, x).
Proof.
  unfold all_digits. induction ds as [|d ds IH]; simpl; intros Hd Hx.
  - destruct x as [|c x]; simpl in *; [reflexivity | now rewrite Hx].
  - apply andb_true_iff in Hd as [Hd1 Hd2]. rewrite Hd1, IH; auto.
Qed.

Lemma lex_int_part_sound (s ip r : text) :
  lex_int_part s = Some (ip, r) -> s = ip ++ r /\ int_part ip.
Proof.
  unfold lex_int_part. destruct s as [|c s]; [discriminate|].
  destruct (c =? 48) eqn:E0.
  - intros H; inversion H; subst. apply N.eqb_eq in E0; subst.
    split; [reflexivity | now left].
  - destruct (is_digit c) eqn:Ed; [|discriminate].
    destruct (span_digits s) as [ds r'] eqn:Es. intros H; inversion H; subst.
    apply span_digits_split in Es as (-> & Hd & _).
    split; [reflexivity|]. right. exists c, ds. apply N.eqb_neq in E0. auto.
Qed.

Lemma lex_int_part_complete (ip y : text) :
  int_part ip -> no_digit_head y -> lex_int_part (ip ++ y) = Some (ip, y).
Proof.
  intros [->|(d & ds & -> & Hd & Hn & Hds)] Hy; simpl.
  - reflexivity.
  - apply N.eqb_neq in Hn. rewrite Hn, Hd, span_digits_app; auto.
Qed.

Lemma lex_frac_sound (s fr r : text) :
  lex_frac s = (fr, r) -> s = fr ++ r /\ frac_part fr.
Proof.
  unfold lex_frac. destruct s as [|p [|d s]];
    try (intros H; inversion H; subst; split; [reflexivity | now left]).
  destruct ((p =? DOT) && is_digit d) eqn:E.
  - destruct (span_digits s) as [ds r'] eqn:Es. intros H; inversion H; subst.
    apply span_digits_split in Es as (-> & Hd & _).
    apply andb_true_iff in E as [Ep Ed]. apply N.eqb_eq in Ep; subst.
    split; [reflexivity|]. right. exists d, ds. auto.
  - intros H; inversion H; subst; split; [reflexivity | now left].
Qed.

Lemma lex_frac_complete (fr y : text) :
  frac_part fr -> no_frac_head y -> lex_frac (fr ++ y) = (fr, y).
Proof.
  intros [->|(d & ds & -> & Hd & Hds)] Hy; simpl.
  - destruct y as [|c [|d y]]; try reflexivity.
    destruct Hy as [_ Hc]. unfold lex_frac.
    destruct (N.eqb_spec c DOT); [contradiction | reflexivity].
  - unfold lex_frac. change (DOT =? DOT) with true. rewrite Hd. simpl.
    rewrite span_digits_app; auto.
    destruct y; simpl in *; tauto.
Qed.

Lemma lex_exp_sound (s ex r : text) :
  lex_exp s = (ex, r) -> s = ex ++ r /\ exp_part ex.
Proof.
  unfold lex_exp.
  assert (Hnone : forall s', (@nil N, s') = (ex, r) -> s' = ex ++ r /\ exp_part ex).
  { intros s' H; inversion H; subst; split; [reflexivity | now left]. }
  destruct s as [|e s]; [apply Hnone|].
  destruct ((e =? 101) || (e =? 69)) eqn:Ee; [|apply Hnone].
  destruct s as [|g s]; [apply Hnone|].
  assert (He : e = 101 \/ e = 69).
  { apply orb_true_iff in Ee as [H|H]; apply N.eqb_eq in H; auto. }
  destruct ((g =? PLUS) || (g =? MINUS)) eqn:Eg.
  - destruct (span_digits s) as [[|d ds] r'] eqn:Es; [apply Hnone|].
    intros H; inversion H; subst.
    apply span_digits_split in Es as (-> & Hd & _).
    unfold all_digits in Hd; simpl in Hd; apply andb_true_iff in Hd as [Hd1 Hd2].
    split; [reflexivity|]. right. exists e, [g], d, ds.
    repeat split; auto.
    apply orb_true_iff in Eg as [H'|H']; apply N.eqb_eq in H'; subst; auto.
  - destruct (span_digits (g :: s)) as [[|d ds] r'] eqn:Es; [apply Hnone|].
    intros H; inversion H; subst.
    apply span_digits_split in Es as (Hs & Hd & _).
    unfold all_digits in Hd; simpl in Hd; apply andb_true_iff in Hd as [Hd1 Hd2].
    split; [simpl; now rewrite Hs|]. right. exists e, [], d, ds.
    repeat split; auto.
Qed.


Lemma lex_exp_complete (ex x : text) :
  exp_part ex -> delim_start x = true -> lex_exp (ex ++ x) = (ex, x).
Proof.
  intros [->|(e & sg & d & ds & -> & He & Hsg & Hd & Hds)] Hx.
  - destruct x as [|c x]; [reflexivity|]. simpl in Hx.
    apply negb_true_iff in Hx.
    repeat (apply orb_false_iff in Hx as [Hx ?]).
    unfold lex_exp. simpl app.
    cbv iota. now rewrite H0, H.
  - assert (Hx' : no_digit_head x).
    { destruct x as [|c x]; simpl in *; [exact I|].
      apply negb_true_iff in Hx. now repeat (apply orb_false_iff in Hx as [Hx ?]). }
    assert (Hsp : span_digits ((d :: ds) ++ x) = (d :: ds, x)).
    { apply (span_digits_app (d :: ds) x); auto.
      unfold all_digits; simpl. now rewrite Hd. }
    assert (Ee : (e =? 101) || (e =? 69) = true).
    { destruct He; subst; reflexivity. }
    unfold lex_exp.
    destruct Hsg as [->|[->| ->]]; simpl app; cbv iota; rewrite Ee.
    + assert (Eg : (d =? PLUS) || (d =? MINUS) = false) by (char_facts; case_tests).
      rewrite Eg. simpl app in Hsp. rewrite Hsp. reflexivity.
    + change ((PLUS =? PLUS) || (PLUS =? MINUS)) with true. cbv iota.
      simpl app in Hsp. rewrite Hsp. reflexivity.
    + change ((MINUS =? PLUS) || (MINUS =? MINUS)) with true. cbv iota.
      simpl app in Hsp. rewrite Hsp. reflexivity.
Qed.

Lemma number_value_match (sign ip fr ex s4 : text) :
  match fr, ex with
  | [], [] =>
      let n := Z.of_N (digits_value ip) in
      Some (JInt (match sign with [] => n | _ => Z.opp n end), s4)
  | _, _ => Some (JFloat (sign ++ ip ++ fr ++ ex), s4)
  end = Some (number_value sign ip fr ex, s4).
Proof. unfold number_value. destruct fr, ex; reflexivity. Qed.

Lemma lex_number_sound (s : text) (v : json) (r : text) :
  lex_number s = Some (v, r) -> exists c, s = c ++ r /\ number_text v c.
Proof.
  unfold lex_number.
  assert (Hsign : exists sign s1,
             (sign = [] \/ sign = [MINUS]) /\ s = sign ++ s1 /\
             lex_sign s = (sign, s1)).
  { unfold lex_sign. destruct s as [|c s'].
    - exists [], []; auto.
    - destruct (N.eqb_spec c MINUS) as [->|Hc].
      + exists [MINUS], s'; auto.
      + exists [], (c :: s'); auto. }
  destruct Hsign as (sign & s1 & Hsg & Hs & ->).
  destruct (lex_int_part s1) as [[ip s2]|] eqn:Eip; [|discriminate].
  destruct (lex_frac s2) as [fr s3] eqn:Efr.
  destruct (lex_exp s3) as [ex s4] eqn:Eex.
  rewrite number_value_match. intros H; inversion H; subst v s4.
  apply lex_int_part_sound in Eip as (-> & Hip).
  apply lex_frac_sound in Efr as (-> & Hfr).
  apply lex_exp_sound in Eex as (-> & Hex).
  exists (sign ++ ip ++ fr ++ ex). split.
  - rewrite Hs, <- !app_assoc. reflexivity.
  - now constructor.
Qed.

Lemma exp_head (ex x : text) :
  exp_part ex -> delim_start x = true -> no_frac_head (ex ++ x).
Proof.
  intros [->|(e & sg & d & ds & -> & He & _)] Hx; simpl.
  - destruct x as [|c x]; simpl in *; [exact I|].
    char_facts. split; [case_tests | lia].
  - unfold is_digit, DOT. destruct He; subst; split; (reflexivity || discriminate).
Qed.

Lemma frac_head (fr y : text) :
  frac_part fr -> no_frac_head y -> no_digit_head (fr ++ y).
Proof.
  intros [->|(d & ds & -> & _)] Hy; simpl.
  - destruct y; simpl in *; tauto.
  - reflexivity.
Qed.

Lemma int_part_head (ip y : text) :
  int_part ip -> exists d r, ip ++ y = d :: r /\ is_digit d = true.
Proof.
  intros [->|(d & ds & -> & Hd & _)]; simpl; eauto.
Qed.

Lemma lex_number_complete (v : json) (c x : text) :
  number_text v c -> delim_start x = true -> lex_number (c ++ x) = Some (v, x).
Proof.
  intros H Hx. destruct H as [sign ip fr ex Hsg Hip Hfr Hex].
  unfold lex_number.
  assert (Hsign : lex_sign ((sign ++ ip ++ fr ++ ex) ++ x)
                  = (sign, ip ++ fr ++ ex ++ x)).
  { unfold lex_sign. destruct Hsg as [->| ->].
    - simpl app. rewrite <- !app_assoc.
      destruct (int_part_head ip (fr ++ ex ++ x) Hip) as (d & r & -> & Hd).
      assert (E : (d =? MINUS) = false) by (char_facts; case_tests).
      now rewrite E.
    - simpl app. change (MINUS =? MINUS) with true. cbv iota.
      now rewrite <- !app_assoc. }
  rewrite Hsign.
  rewrite lex_int_part_complete; auto.
  2:{ apply frac_head; auto. apply exp_head; auto. }
  rewrite lex_frac_complete; auto using exp_head.
  rewrite lex_exp_complete; auto.
  apply number_value_match.
Qed.

(** ** String literals *)

Lemma cons_fst_some (c : N) (o : option (text * text)) (str r : text) :
  cons_fst c o = Some (str, r) ->
  exists str', o = Some (str', r) /\ str = c :: str'.
Proof.
  destruct o as [[str' r']|]; simpl; [|discriminate].
  intros H; inversion H; subst. eauto.
Qed.

Lemma hex_val_plain (h n : N) :
  hex_val h = Some n ->
  is_brace h = false /\ (h =? QUOTE) = false /\ (h =? BACKSLASH) = false.
Proof.
  unfold hex_val, is_brace, LBRACE, RBRACE, QUOTE, BACKSLASH.
  destruct ((48 <=? h) && (h <=? 57)) eqn:E1;
    [|destruct ((97 <=? h) && (h <=? 102)) eqn:E2;
      [|destruct ((65 <=? h) && (h <=? 70)) eqn:E3; [|discriminate]]];
    intros _; bool_hyps; repeat split; case_tests.
Qed.

Lemma hex4_plain (h1 h2 h3 h4 u : N) :
  hex4 h1 h2 h3 h4 = Some u ->
  forall st y,
    (st = Inside \/ st = Outside) ->
    literals_brace_free st (h1 :: h2 :: h3 :: h4 :: y) = literals_brace_free st y.
Proof.
  unfold hex4.
  destruct (hex_val h1) eqn:E1; [|discriminate].
  destruct (hex_val h2) eqn:E2; [|discriminate].
  destruct (hex_val h3) eqn:E3; [|discriminate].
  destruct (hex_val h4) eqn:E4; [|discriminate].
  intros _ st y Hst.
  apply hex_val_plain in E1 as (B1 & Q1 & S1).
  apply hex_val_plain in E2 as (B2 & Q2 & S2).
  apply hex_val_plain in E3 as (B3 & Q3 & S3).
  apply hex_val_plain in E4 as (B4 & Q4 & S4).
  destruct Hst as [->| ->]; simpl;
    rewrite ?B1, ?Q1, ?S1, ?B2, ?Q2, ?S2, ?B3, ?Q3, ?S3, ?B4, ?Q4, ?S4; reflexivity.
Qed.

Lemma walk_escape_u (h1 h2 h3 h4 u : N) (t : text) :
  hex4 h1 h2 h3 h4 = Some u ->
  literals_brace_free Inside (BACKSLASH :: 117 :: h1 :: h2 :: h3 :: h4 :: t)
  = literals_brace_free Inside t.
Proof.
  intros Eh.
  transitivity (literals_brace_free Inside (h1 :: h2 :: h3 :: h4 :: t));
    [reflexivity|].
  apply (hex4_plain _ _ _ _ _ Eh). now left.
Qed.

Lemma hex4_no_braces (h1 h2 h3 h4 u : N) (t : text) :
  hex4 h1 h2 h3 h4 = Some u ->
  no_braces t -> no_braces (BACKSLASH :: 117 :: h1 :: h2 :: h3 :: h4 :: t).
Proof.
  unfold hex4. intros Eh Ht.
  destruct (hex_val h1) eqn:E1; [|discriminate].
  destruct (hex_val h2) eqn:E2; [|discriminate].
  destruct (hex_val h3) eqn:E3; [|discriminate].
  destruct (hex_val h4) eqn:E4; [|discriminate].
  apply hex_val_plain in E1 as (B1 & _). apply hex_val_plain in E2 as (B2 & _).
  apply hex_val_plain in E3 as (B3 & _). apply hex_val_plain in E4 as (B4 & _).
  unfold no_braces in *. simpl. now rewrite B1, B2, B3, B4.
Qed.

Lemma simple_escape_not_u (e x : N) : simple_escape e = Some x -> (e =? 117) = false.
Proof.
  intros H. destruct (N.eqb_spec e 117) as [->|]; [discriminate | reflexivity].
Qed.

Lemma no_braces_cons (c : N) (b : text) :
  is_brace c = false -> no_braces b -> no_braces (c :: b).
Proof. unfold no_braces; simpl; intros -> ->; reflexivity. Qed.

(** What a successful [scanstring] has read: the literal [b] up to its
    closing quote reads the same before any other text, the look-ahead at
    its head does not depend on what follows, and a walk that finds no
    brace inside string literals leaves it brace-free. *)
Lemma scanstring_sound_aux (n : nat) :
  forall s, (length s <= n)%nat -> forall str r,
  scanstring s = Some (str, r) ->
  exists b, s = b ++ r
    /\ (forall x, scanstring (b ++ x) = Some (str, x))
    /\ (forall x, pair_ahead (b ++ x) = pair_ahead s)
    /\ (forall y, literals_brace_free Inside (b ++ y) = true ->
                  no_braces b /\ literals_brace_free Outside y = true).
Proof.
  induction n as [|n IH]; intros s Hlen str r H.
  { destruct s; [discriminate | simpl in Hlen; lia]. }
  destruct s as [|c s0]; [discriminate|].
  cbn [scanstring] in H.
  destruct (c =? QUOTE) eqn:Eq.
  { (* the closing quote *)
    inversion H; subst. apply N.eqb_eq in Eq; subst c.
    exists [QUOTE]. split; [reflexivity|]. split; [reflexivity|]. split.
    - intros x. cbn [app].
      destruct x as [|? [|? [|? [|? [|? ?]]]]];
        destruct r as [|? [|? [|? [|? [|? ?]]]]]; reflexivity.
    - intros y Hy. split; [reflexivity | exact Hy]. }
  destruct (c =? BACKSLASH) eqn:Eb.
  2:{ (* a plain character *)
    destruct (c <? 32) eqn:Ec; [discriminate|].
    apply cons_fst_some in H as (str' & H & ->).
    apply IH in H as (b & -> & Hext & _ & Hlbf); [|simpl in Hlen; lia].
    exists (c :: b). split; [reflexivity|]. split; [|split].
    - intros x. cbn [app scanstring]. rewrite Eq, Eb, Ec, Hext. reflexivity.
    - intros x. cbn [app].
      destruct (b ++ x) as [|? [|? [|? [|? [|? ?]]]]];
        destruct (b ++ r) as [|? [|? [|? [|? [|? ?]]]]]; simpl; rewrite ?Eb; reflexivity.
    - intros y. cbn [app literals_brace_free].
      destruct (is_brace c) eqn:Ebr; [discriminate|]. rewrite Eq, Eb.
      intros Hy. apply Hlbf in Hy as [Hb Hy]. split; [now apply no_braces_cons | exact Hy]. }
  apply N.eqb_eq in Eb; subst c.
  destruct s0 as [|e r1]; [discriminate|].
  destruct (e =? 117) eqn:Eu.
  2:{ (* a one-letter escape *)
    destruct (simple_escape e) as [x0|] eqn:Ee; [|discriminate].
    apply cons_fst_some in H as (str' & H & ->).
    apply IH in H as (b & -> & Hext & _ & Hlbf); [|simpl in Hlen; lia].
    exists (BACKSLASH :: e :: b). split; [reflexivity|]. split; [|split].
    - intros x. cbn [app scanstring]. change (BACKSLASH =? QUOTE) with false.
      change (BACKSLASH =? BACKSLASH) with true. cbv iota. rewrite Eu, Ee, Hext. reflexivity.
    - intros x. cbn [app].
      destruct (b ++ x) as [|? [|? [|? [|? ?]]]];
        destruct (b ++ r) as [|? [|? [|? [|? ?]]]]; simpl; rewrite ?Eu; reflexivity.
    - intros y. cbn [app literals_brace_free].
      change (is_brace BACKSLASH) with false. change (BACKSLASH =? QUOTE) with false.
      change (BACKSLASH =? BACKSLASH) with true. cbv iota.
      destruct (is_brace e) eqn:Ebr; [discriminate|].
      intros Hy. apply Hlbf in Hy as [Hb Hy]. split; [|exact Hy].
      apply no_braces_cons; [reflexivity|]. now apply no_braces_cons. }
  apply N.eqb_eq in Eu; subst e.
  destruct r1 as [|h1 [|h2 [|h3 [|h4 r2]]]]; try discriminate.
  destruct (hex4 h1 h2 h3 h4) as [u|] eqn:Eh; [|discriminate].
  assert (Hhead : forall t x t',
            pair_ahead ((BACKSLASH :: 117 :: h1 :: h2 :: h3 :: h4 :: t) ++ x)
            = pair_ahead (BACKSLASH :: 117 :: h1 :: h2 :: h3 :: h4 :: t')).
  { intros; reflexivity. }
  assert (Hnb := fun t => hex4_no_braces h1 h2 h3 h4 u t Eh).
  assert (Hwalk := fun t => walk_escape_u h1 h2 h3 h4 u t Eh).
  assert (Hplain : forall str', scanstring r2 = Some (str', r) ->
            (is_high_surrogate u = false \/ pair_ahead r2 = NoPair) ->
            exists b, BACKSLASH :: 117 :: h1 :: h2 :: h3 :: h4 :: r2 = b ++ r
              /\ (forall x, scanstring (b ++ x) = Some (u :: str', x))
              /\ (forall x, pair_ahead (b ++ x)
                            = pair_ahead (BACKSLASH :: 117 :: h1 :: h2 :: h3 :: h4 :: r2))
              /\ (forall y, literals_brace_free Inside (b ++ y) = true ->
                            no_braces b /\ literals_brace_free Outside y = true)).
  { intros str' H' Hno.
    apply IH in H' as (b & Hr2 & Hext & Hah & Hlbf); [|simpl in Hlen; lia].
    exists (BACKSLASH :: 117 :: h1 :: h2 :: h3 :: h4 :: b).
    split; [now rewrite Hr2|]. split; [|split].
    - intros x. cbn [app scanstring]. change (BACKSLASH =? QUOTE) with false.
      change (BACKSLASH =? BACKSLASH) with true. change (117 =? 117) with true.
      cbv iota. rewrite Eh.
      destruct Hno as [Hno|Hno].
      + rewrite Hno, Hext. reflexivity.
      + rewrite Hah, Hno, Hext. now destruct (is_high_surrogate u).
    - intros x. apply Hhead.
    - intros y Hy. change ((BACKSLASH :: 117 :: h1 :: h2 :: h3 :: h4 :: b) ++ y)
        with (BACKSLASH :: 117 :: h1 :: h2 :: h3 :: h4 :: b ++ y) in Hy.
      rewrite Hwalk in Hy. apply Hlbf in Hy as [Hb Hy]. split; auto. }
  destruct (is_high_surrogate u) eqn:Ehi.
  2:{ apply cons_fst_some in H as (str' & H & ->). apply Hplain; auto. }
  destruct (pair_ahead r2) as [|u2|] eqn:Eah; [| |discriminate].
  { apply cons_fst_some in H as (str' & H & ->). apply Hplain; auto. }
  (* a surrogate pair *)
  destruct r2 as [|b0 [|u' [|g1 [|g2 [|g3 [|g4 r3]]]]]]; try discriminate.
  apply cons_fst_some in H as (str' & H & ->).
  apply IH in H as (b & -> & Hext & _ & Hlbf); [|simpl in Hlen; lia].
  assert (Eah' := Eah). unfold pair_ahead in Eah'.
  destruct ((b0 =? BACKSLASH) && (u' =? 117)) eqn:Ebu; [|discriminate].
  apply andb_true_iff in Ebu as [E1 E2]. apply N.eqb_eq in E1, E2; subst b0 u'.
  destruct (hex4 g1 g2 g3 g4) as [u2'|] eqn:Eg; [|discriminate].
  exists (BACKSLASH :: 117 :: h1 :: h2 :: h3 :: h4
          :: BACKSLASH :: 117 :: g1 :: g2 :: g3 :: g4 :: b).
  split; [reflexivity|]. split; [|split].
  - intros x. cbn [app scanstring]. change (BACKSLASH =? QUOTE) with false.
    change (BACKSLASH =? BACKSLASH) with true. change (117 =? 117) with true.
    cbv iota. rewrite Eh, Ehi.
    replace (pair_ahead (BACKSLASH :: 117 :: g1 :: g2 :: g3 :: g4 :: b ++ x))
      with (Pair u2) by (rewrite <- Eah; reflexivity).
    rewrite Hext. reflexivity.
  - intros x. reflexivity.
  - intros y Hy.
    change ((BACKSLASH :: 117 :: h1 :: h2 :: h3 :: h4
             :: BACKSLASH :: 117 :: g1 :: g2 :: g3 :: g4 :: b) ++ y)
      with (BACKSLASH :: 117 :: h1 :: h2 :: h3 :: h4
            :: BACKSLASH :: 117 :: g1 :: g2 :: g3 :: g4 :: b ++ y) in Hy.
    rewrite Hwalk in Hy.
    assert (Hwalk2 := walk_escape_u g1 g2 g3 g4 _ (b ++ y) Eg).
    rewrite Hwalk2 in Hy. apply Hlbf in Hy as [Hb Hy]. split; [|exact Hy].
    apply Hnb. now apply (hex4_no_braces g1 g2 g3 g4 u2').
Qed.

Lemma scanstring_sound (s str r : text) :
  scanstring s = Some (str, r) -> exists b, s = b ++ r /\ string_lit str b.
Proof.
  intros H.
  destruct (scanstring_sound_aux (length s) s (le_n _) str r H) as (b & Hs & Hext & _).
  exists b; split; assumption.
Qed.

Lemma string_lit_walk (str b y : text) :
  string_lit str b ->
  literals_brace_free Inside (b ++ y) = true ->
  no_braces b /\ literals_brace_free Outside y = true.
Proof.
  intros Hlit. pose proof (Hlit []) as H.
  destruct (scanstring_sound_aux _ _ (le_n _) _ _ H) as (b1 & Hb & _ & _ & Hwalk).
  rewrite !app_nil_r in Hb. subst b1. apply Hwalk.
Qed.

Lemma expect_sound (w s r : text) : expect w s = Some r -> s = w ++ r.
Proof.
  revert s; induction w as [|x w IH]; intros s; simpl.
  - intros H; now inversion H.
  - destruct s as [|y s]; [discriminate|].
    destruct (N.eqb_spec x y) as [->|]; [|discriminate].
    intros H; apply IH in H; now subst.
Qed.

Lemma expect_complete (w x : text) : expect w (w ++ x) = Some x.
Proof.
  induction w as [|c w IH]; simpl; [reflexivity|].
  now rewrite N.eqb_refl.
Qed.

(** ** The scanner accepts only the texts of the grammar *)

Lemma lex_const_sound (w : text) (v0 v : json) (s r : text) :
  lex_const w v0 s = Some (v, r) -> v = v0 /\ s = w ++ r.
Proof.
  unfold lex_const. destruct (expect w s) as [rest|] eqn:E; [|discriminate].
  intros H; inversion H; subst. split; [reflexivity | now apply expect_sound].
Qed.

Ltac app_norm :=
  repeat (rewrite <- app_assoc || rewrite <- app_comm_cons); try reflexivity.

Lemma scan_sound (f : nat) :
  (forall s v r, scan_once f s = Some (v, r) ->
     exists c, s = c ++ r /\ value_text v c)
  /\ (forall s acc v r, parse_members f s acc = Some (v, r) ->
        exists c d, v = JObj d /\ s = c ++ r /\ members_text acc d c)
  /\ (forall s acc v r, parse_elements f s acc = Some (v, r) ->
        exists c l, v = JArr l /\ s = c ++ r /\ elements_text acc l c).
Proof.
  induction f as [|f (IHv & IHm & IHe)]; [repeat split; intros; discriminate|].
  split; [|split].
  - (* scan_once *)
    intros s v r H. cbn [scan_once] in H.
    destruct s as [|c s0]; [discriminate|].
    destruct (c =? QUOTE) eqn:Eq.
    { apply N.eqb_eq in Eq; subst c.
      destruct (scanstring s0) as [[str rest]|] eqn:Es; [|discriminate].
      inversion H; subst. apply scanstring_sound in Es as (b & -> & Hb).
      exists (QUOTE :: b). split; [reflexivity | now constructor]. }
    destruct (c =? LBRACE) eqn:Elb.
    { apply N.eqb_eq in Elb; subst c.
      destruct (skip_ws_split s0) as (w & Hs0 & Hw).
      destruct (skip_ws s0) as [|c' r'] eqn:Ews; [discriminate|].
      rewrite Hs0. clear Hs0 Ews.
      destruct (c' =? RBRACE) eqn:Erb.
      - apply N.eqb_eq in Erb; subst c'. inversion H; subst.
        exists (LBRACE :: w ++ [RBRACE]). split; [app_norm | now constructor].
      - apply IHm in H as (cm & d & -> & Hcm & Hm). rewrite Hcm.
        exists (LBRACE :: w ++ cm). split; [app_norm | now constructor]. }
    destruct (c =? LBRACKET) eqn:Elk.
    { apply N.eqb_eq in Elk; subst c.
      destruct (skip_ws_split s0) as (w & Hs0 & Hw).
      destruct (skip_ws s0) as [|c' r'] eqn:Ews; [discriminate|].
      rewrite Hs0. clear Hs0 Ews.
      destruct (c' =? RBRACKET) eqn:Erb.
      - apply N.eqb_eq in Erb; subst c'. inversion H; subst.
        exists (LBRACKET :: w ++ [RBRACKET]). split; [app_norm | now constructor].
      - apply IHe in H as (ce & l & -> & Hce & He). rewrite Hce.
        exists (LBRACKET :: w ++ ce). split; [app_norm | now constructor]. }
    assert (Hnum : lex_number (c :: s0) = Some (v, r) ->
                   exists c0, c :: s0 = c0 ++ r /\ value_text v c0).
    { intros Hn. apply lex_number_sound in Hn as (c0 & Hc0 & Hnt).
      exists c0. split; [exact Hc0 | now apply VT_number]. }
    assert (Hconst : forall w v0, const_text v0 w ->
                     lex_const w v0 (c :: s0) = Some (v, r) ->
                     exists c0, c :: s0 = c0 ++ r /\ value_text v c0).
    { intros w v0 Hct Hc. apply lex_const_sound in Hc as (-> & Hc).
      exists w. split; [exact Hc | now apply VT_const]. }
    destruct (c =? 110); [apply (Hconst _ _ CT_null H)|].
    destruct (c =? 116); [apply (Hconst _ _ CT_true H)|].
    destruct (c =? 102); [apply (Hconst _ _ CT_false H)|].
    destruct (c =? 78); [apply (Hconst _ _ CT_nan H)|].
    destruct (c =? 73); [apply (Hconst _ _ CT_inf H)|].
    destruct (c =? MINUS); [|now apply Hnum].
    destruct (expect NEG_INF_LIT (c :: s0)) as [rest|] eqn:Ex; [|now apply Hnum].
    inversion H; subst. apply expect_sound in Ex.
    exists NEG_INF_LIT. split; [exact Ex | apply VT_const; constructor].
  - (* parse_members *)
    intros s acc v r H. cbn [parse_members] in H.
    destruct s as [|q s0]; [discriminate|].
    destruct (q =? QUOTE) eqn:Eq; [|discriminate].
    apply N.eqb_eq in Eq; subst q.
    destruct (scanstring s0) as [[key r1]|] eqn:Es; [|discriminate].
    apply scanstring_sound in Es as (b & -> & Hb).
    destruct (skip_ws_split r1) as (w1 & Hr1 & Hw1).
    destruct (skip_ws r1) as [|c r2] eqn:E1; [discriminate|].
    rewrite Hr1. clear Hr1 E1.
    destruct (c =? COLON) eqn:Ec; [|discriminate].
    apply N.eqb_eq in Ec; subst c.
    destruct (skip_ws_split r2) as (w2 & Hr2 & Hw2).
    destruct (scan_once f (skip_ws r2)) as [[v0 r3]|] eqn:Ev; [|discriminate].
    apply IHv in Ev as (cv & Hcv & Hv).
    rewrite Hr2, Hcv. clear Hr2 Hcv.
    destruct (skip_ws_split r3) as (w3 & Hr3 & Hw3).
    destruct (skip_ws r3) as [|d r4] eqn:E3; [discriminate|].
    rewrite Hr3. clear Hr3 E3.
    destruct (d =? RBRACE) eqn:Erb.
    + apply N.eqb_eq in Erb; subst d. inversion H; subst.
      exists (QUOTE :: b ++ w1 ++ COLON :: w2 ++ cv ++ w3 ++ [RBRACE]), (dict_set key v0 acc).
      split; [reflexivity|]. split; [app_norm | now apply (MT_last acc key b w1 w2 v0 cv w3)].
    + destruct (d =? COMMA) eqn:Eco; [|discriminate].
      apply N.eqb_eq in Eco; subst d.
      destruct (skip_ws_split r4) as (w4 & Hr4 & Hw4).
      apply IHm in H as (cm & d' & -> & Hcm & Hm).
      rewrite Hr4, Hcm. clear Hr4 Hcm.
      exists (QUOTE :: b ++ w1 ++ COLON :: w2 ++ cv ++ w3 ++ COMMA :: w4 ++ cm), d'.
      split; [reflexivity|]. split; [app_norm | now apply (MT_more acc key b w1 w2 v0 cv w3 w4 d' cm)].
  - (* parse_elements *)
    intros s acc v r H. cbn [parse_elements] in H.
    destruct (scan_once f s) as [[v0 r1]|] eqn:Ev; [|discriminate].
    apply IHv in Ev as (cv & -> & Hv).
    destruct (skip_ws_split r1) as (w1 & Hr1 & Hw1).
    destruct (skip_ws r1) as [|d r2] eqn:E1; [discriminate|].
    rewrite Hr1. clear Hr1 E1.
    destruct (d =? RBRACKET) eqn:Erb.
    + apply N.eqb_eq in Erb; subst d. inversion H; subst.
      exists (cv ++ w1 ++ [RBRACKET]), (rev (v0 :: acc)).
      split; [reflexivity|]. split; [app_norm | now apply (ET_last acc v0 cv w1)].
    + destruct (d =? COMMA) eqn:Eco; [|discriminate].
      apply N.eqb_eq in Eco; subst d.
      destruct (skip_ws_split r2) as (w2 & Hr2 & Hw2).
      apply IHe in H as (ce & l & -> & Hce & He).
      rewrite Hr2, Hce. clear Hr2 Hce.
      exists (cv ++ w1 ++ COMMA :: w2 ++ ce), l.
      split; [reflexivity|]. split; [app_norm | now apply (ET_more acc v0 cv w1 w2 l ce)].
Qed.

(** ** The scanner accepts every text of the grammar *)

Lemma string_lit_nonempty (str b : text) : string_lit str b -> b <> [].
Proof. intros H ->. specialize (H []). discriminate. Qed.

Lemma int_part_digit_head (ip : text) :
  int_part ip -> exists d r, ip = d :: r /\ is_digit d = true.
Proof. intros [->|(d & ds & -> & Hd & _)]; eauto. Qed.

(** A number begins with a digit, or with a minus sign and a digit. *)
Lemma number_text_head (v : json) (c : text) :
  number_text v c ->
  exists d r, is_digit d = true /\ (c = d :: r \/ c = MINUS :: d :: r).
Proof.
  intros [sign ip fr ex Hsg Hip _ _].
  destruct (int_part_digit_head ip Hip) as (d & r & -> & Hd).
  exists d, (r ++ fr ++ ex). split; [exact Hd|].
  destruct Hsg as [->| ->]; [left | right]; reflexivity.
Qed.

Lemma value_text_head (v : json) (c : text) :
  value_text v c ->
  exists c0 c', c = c0 :: c' /\ is_ws c0 = false /\ (c0 =? RBRACKET) = false.
Proof.
  intros H; destruct H as [str b _|v c Hn|v c Hc|w _|w d c _ _|w _|w l c _ _];
    try (eexists _, _; split; [reflexivity | split; reflexivity]).
  - destruct (number_text_head _ _ Hn) as (d & r & Hd & [->| ->]);
      eexists _, _; (split; [reflexivity|]).
    + char_facts. split; case_tests.
    + split; reflexivity.
  - destruct Hc; eexists _, _; (split; [reflexivity | split; reflexivity]).
Qed.

Lemma members_text_head (acc d : dict) (c : text) :
  members_text acc d c -> exists c', c = QUOTE :: c'.
Proof. intros H; destruct H; eauto. Qed.

Lemma scan_once_number (f : nat) (v : json) (c x : text) :
  number_text v c -> scan_once (S f) (c ++ x) = lex_number (c ++ x).
Proof.
  intros H. destruct (number_text_head _ _ H) as (d & r & Hd & [->| ->]).
  - cbn [app scan_once].
    assert (E : forall k, k < 48 \/ 57 < k -> (d =? k) = false).
    { intros k Hk. char_facts. case_tests. }
    unfold QUOTE, LBRACE, LBRACKET, MINUS.
    rewrite !E by lia. reflexivity.
  - cbn [app scan_once].
    change (MINUS =? QUOTE) with false. change (MINUS =? LBRACE) with false.
    change (MINUS =? LBRACKET) with false. change (MINUS =? 110) with false.
    change (MINUS =? 116) with false. change (MINUS =? 102) with false.
    change (MINUS =? 78) with false. change (MINUS =? 73) with false.
    change (MINUS =? MINUS) with true. cbv iota.
    assert (E : expect NEG_INF_LIT (MINUS :: d :: r ++ x) = None).
    { unfold NEG_INF_LIT. cbn [expect]. change (45 =? MINUS) with true. cbv iota.
      assert (E : (73 =? d) = false) by (char_facts; case_tests).
      now rewrite E. }
    now rewrite E.
Qed.

Lemma scan_once_const (f : nat) (v : json) (c x : text) :
  const_text v c -> scan_once (S f) (c ++ x) = Some (v, x).
Proof.
  intros H; destruct H; cbn [app scan_once]; reflexivity.
Qed.

Lemma delim_ws_head (w y : text) (c : N) :
  all_ws w -> (c = RBRACE \/ c = RBRACKET \/ c = COMMA) ->
  delim_start (w ++ c :: y) = true.
Proof.
  intros Hw Hc. destruct w as [|c0 w]; simpl.
  - destruct Hc as [->|[->| ->]]; reflexivity.
  - unfold all_ws in Hw; simpl in Hw. apply andb_true_iff in Hw as [Hc0 _].
    char_facts. case_tests.
Qed.

Lemma skip_ws_to (w y : text) (c : N) :
  all_ws w -> is_ws c = false -> skip_ws (w ++ c :: y) = c :: y.
Proof. intros Hw Hc. rewrite skip_ws_app by assumption. now apply skip_ws_stop. Qed.

Lemma skip_ws_value (w y : text) (v : json) (c : text) :
  all_ws w -> value_text v c -> skip_ws (w ++ c ++ y) = c ++ y.
Proof.
  intros Hw Hv. destruct (value_text_head _ _ Hv) as (c0 & c' & -> & Hc0 & _).
  cbn [app]. now apply skip_ws_to.
Qed.

Lemma scan_complete :
  (forall v c, value_text v c ->
     forall x f, (length c <= f)%nat -> delim_start x = true ->
     scan_once f (c ++ x) = Some (v, x))
  /\ (forall acc d c, members_text acc d c ->
        forall x f, (length c <= f)%nat ->
        parse_members f (c ++ x) acc = Some (JObj d, x))
  /\ (forall acc l c, elements_text acc l c ->
        forall x f, (length c <= f)%nat ->
        parse_elements f (c ++ x) acc = Some (JArr l, x)).
Proof.
  apply value_text_mutind.
  - (* string *)
    intros str b Hb x f Hf _. destruct f as [|f]; [simpl in Hf; lia|].
    cbn [app scan_once]. change (QUOTE =? QUOTE) with true. cbv iota.
    now rewrite Hb.
  - (* number *)
    intros v c Hn x f Hf Hx.
    destruct f as [|f].
    { destruct (number_text_head _ _ Hn) as (? & ? & _ & [->| ->]); simpl in Hf; lia. }
    rewrite (scan_once_number f v c x Hn). now apply lex_number_complete.
  - (* constant *)
    intros v c Hc x f Hf _.
    destruct f as [|f]; [destruct Hc; simpl in Hf; lia|].
    now apply scan_once_const.
  - (* empty object *)
    intros w Hw x f Hf _. destruct f as [|f]; [simpl in Hf; lia|].
    cbn [app scan_once]. change (LBRACE =? QUOTE) with false.
    change (LBRACE =? LBRACE) with true. cbv iota.
    rewrite <- app_assoc. cbn [app]. rewrite skip_ws_to by (auto || reflexivity).
    change (RBRACE =? RBRACE) with true. reflexivity.
  - (* object *)
    intros w d c Hw Hm IH x f Hf _. destruct f as [|f]; [simpl in Hf; lia|].
    cbn [app scan_once]. change (LBRACE =? QUOTE) with false.
    change (LBRACE =? LBRACE) with true. cbv iota.
    rewrite <- app_assoc.
    destruct (members_text_head _ _ _ Hm) as (c' & ->).
    cbn [app]. rewrite skip_ws_to by (auto || reflexivity).
    change (QUOTE =? RBRACE) with false. cbv iota.
    apply (IH x f). simpl in Hf. rewrite length_app in Hf. simpl in *. lia.
  - (* empty array *)
    intros w Hw x f Hf _. destruct f as [|f]; [simpl in Hf; lia|].
    cbn [app scan_once]. change (LBRACKET =? QUOTE) with false.
    change (LBRACKET =? LBRACE) with false.
    change (LBRACKET =? LBRACKET) with true. cbv iota.
    rewrite <- app_assoc. cbn [app]. rewrite skip_ws_to by (auto || reflexivity).
    change (RBRACKET =? RBRACKET) with true. reflexivity.
  - (* array *)
    intros w l c Hw He IH x f Hf _. destruct f as [|f]; [simpl in Hf; lia|].
    cbn [app scan_once]. change (LBRACKET =? QUOTE) with false.
    change (LBRACKET =? LBRACE) with false.
    change (LBRACKET =? LBRACKET) with true. cbv iota.
    rewrite <- app_assoc.
    assert (Hhd : exists c0 c', c = c0 :: c' /\ is_ws c0 = false /\ (c0 =? RBRACKET) = false).
    { destruct He as [acc' v' c1 w' Hv' _|acc' v' c1 w1' w2' l' rest' Hv' _ _ _];
        destruct (value_text_head _ _ Hv') as (c0 & c' & -> & Hc0 & Hc0');
        eexists _, _; (split; [reflexivity | auto]). }
    destruct Hhd as (c0 & c' & -> & Hc0 & Hc0').
    cbn [app]. rewrite skip_ws_to by auto. rewrite Hc0'.
    apply (IH x f). simpl in Hf. rewrite length_app in Hf. simpl in *. lia.
  - (* last member *)
    intros acc key b w1 w2 v c w3 Hb Hw1 Hw2 Hv IH Hw3 x f Hf.
    destruct f as [|f]; [simpl in Hf; lia|].
    cbn [app parse_members]. change (QUOTE =? QUOTE) with true. cbv iota.
    rewrite <- app_assoc, Hb. rewrite <- app_assoc. cbn [app].
    rewrite skip_ws_to by (auto || reflexivity).
    change (COLON =? COLON) with true. cbv iota.
    rewrite <- !app_assoc.
    rewrite (skip_ws_value w2 _ v c Hw2 Hv).
    rewrite IH.
    + cbn [app]. rewrite skip_ws_to by (auto || reflexivity).
      change (RBRACE =? RBRACE) with true. reflexivity.
    + simpl in Hf. repeat (rewrite !length_app in Hf; simpl in Hf). lia.
    + apply delim_ws_head; auto.
  - (* a member and more *)
    intros acc key b w1 w2 v c w3 w4 d rest Hb Hw1 Hw2 Hv IH Hw3 Hw4 Hm IHm x f Hf.
    destruct f as [|f]; [simpl in Hf; lia|].
    cbn [app parse_members]. change (QUOTE =? QUOTE) with true. cbv iota.
    rewrite <- app_assoc, Hb. rewrite <- app_assoc. cbn [app].
    rewrite skip_ws_to by (auto || reflexivity).
    change (COLON =? COLON) with true. cbv iota.
    rewrite <- !app_assoc.
    rewrite (skip_ws_value w2 _ v c Hw2 Hv).
    assert (Hlen : (length c <= f /\ length rest <= f)%nat).
    { simpl in Hf. repeat (rewrite !length_app in Hf; simpl in Hf). lia. }
    rewrite IH; [|lia|apply delim_ws_head; auto].
    cbn [app]. rewrite skip_ws_to by (auto || reflexivity).
    change (COMMA =? RBRACE) with false. change (COMMA =? COMMA) with true. cbv iota.
    rewrite <- app_assoc.
    destruct (members_text_head _ _ _ Hm) as (r' & ->).
    cbn [app]. rewrite skip_ws_to by (auto || reflexivity).
    apply (IHm x f). lia.
  - (* last element *)
    intros acc v c w Hv IH Hw x f Hf.
    destruct f as [|f].
    { destruct (value_text_head _ _ Hv) as (? & ? & -> & _ & _). simpl in Hf; lia. }
    cbn [parse_elements]. rewrite <- !app_assoc.
    assert (Hlen : (length c <= f)%nat).
    { rewrite !length_app in Hf. simpl in Hf. lia. }
    rewrite IH; [|lia|apply delim_ws_head; auto].
    cbn [app]. rewrite skip_ws_to by (auto || reflexivity).
    change (RBRACKET =? RBRACKET) with true. reflexivity.
  - (* an element and more *)
    intros acc v c w1 w2 l rest Hv IH Hw1 Hw2 He IHe x f Hf.
    destruct f as [|f].
    { destruct (value_text_head _ _ Hv) as (? & ? & -> & _ & _). simpl in Hf; lia. }
    cbn [parse_elements]. rewrite <- !app_assoc.
    assert (Hlen : (length c <= f /\ length rest <= f)%nat).
    { repeat (rewrite !length_app in Hf; simpl in Hf). lia. }
    cbn [app]. rewrite IH; [|lia|apply delim_ws_head; auto].
    rewrite skip_ws_to by (auto || reflexivity).
    change (COMMA =? RBRACKET) with false. change (COMMA =? COMMA) with true. cbv iota.
    rewrite <- app_assoc.
    assert (Hhd : exists c0 c', rest = c0 :: c' /\ is_ws c0 = false).
    { destruct He as [acc' v' c1 w' Hv' _|acc' v' c1 w1' w2' l' rest' Hv' _ _ _];
        destruct (value_text_head _ _ Hv') as (c0 & c' & -> & Hc0 & _);
        eexists _, _; (split; [reflexivity | auto]). }
    destruct Hhd as (c0 & c' & -> & Hc0).
    cbn [app]. rewrite skip_ws_to by auto.
    apply (IHe x f). lia.
Qed.

(** ** Whole documents *)

Lemma delim_ws (w : text) : all_ws w -> delim_start w = true.
Proof.
  destruct w as [|c w]; [reflexivity|]. unfold all_ws; simpl.
  intros H. apply andb_true_iff in H as [Hc _]. char_facts. case_tests.
Qed.

Lemma decode_sound (s : text) (v : json) :
  decode s = Some v ->
  exists w1 c w2, s = w1 ++ c ++ w2 /\ all_ws w1 /\ all_ws w2 /\ value_text v c.
Proof.
  unfold decode. destruct (skip_ws_split s) as (w1 & Hs & Hw1).
  destruct (scan_once (S (length s)) (skip_ws s)) as [[v0 rest]|] eqn:E; [|discriminate].
  destruct (proj1 (scan_sound _) _ _ _ E) as (c & Hc & Hv).
  destruct (skip_ws_split rest) as (w2 & Hrest & Hw2).
  destruct (skip_ws rest) eqn:Er; [|discriminate].
  intros H; inversion H; subst v0.
  exists w1, c, w2. rewrite app_nil_r in Hrest. subst rest.
  repeat split; auto. now rewrite Hs at 1; rewrite Hc.
Qed.

Lemma decode_complete (v : json) (c w1 w2 : text) :
  value_text v c -> all_ws w1 -> all_ws w2 -> decode (w1 ++ c ++ w2) = Some v.
Proof.
  intros Hv Hw1 Hw2. unfold decode.
  rewrite (skip_ws_value w1 w2 v c Hw1 Hv).
  rewrite (proj1 scan_complete v c Hv w2).
  - now rewrite skip_ws_all.
  - rewrite !length_app. lia.
  - now apply delim_ws.
Qed.

(** Anything but white space after the value makes the document invalid. *)
Lemma decode_extra_data (v : json) (c w1 x : text) :
  value_text v c -> all_ws w1 -> delim_start x = true -> skip_ws x <> [] ->
  decode (w1 ++ c ++ x) = None.
Proof.
  intros Hv Hw1 Hx Hne. unfold decode.
  rewrite (skip_ws_value w1 x v c Hw1 Hv).
  rewrite (proj1 scan_complete v c Hv x); auto.
  - destruct (skip_ws x); [contradiction | reflexivity].
  - rewrite !length_app. lia.
Qed.

(** The text of an object: an opening brace, and a closing brace last. *)
Lemma members_text_last (acc d : dict) (c : text) :
  members_text acc d c -> exists m, c = m ++ [RBRACE].
Proof.
  induction 1 as [acc key b w1 w2 v c w3 _ _ _ _ _
                 |acc key b w1 w2 v c w3 w4 d rest _ _ _ _ _ _ _ (m & ->)].
  - exists (QUOTE :: b ++ w1 ++ COLON :: w2 ++ c ++ w3). app_norm.
  - exists (QUOTE :: b ++ w1 ++ COLON :: w2 ++ c ++ w3 ++ COMMA :: w4 ++ m). app_norm.
Qed.

Lemma object_text_shape (d : dict) (c : text) :
  value_text (JObj d) c -> exists m, c = LBRACE :: m ++ [RBRACE].
Proof.
  intros H. inversion H as [| ? ? Hn | ? ? Hc | w Hw | w d' c' Hw Hm | |]; subst.
  - inversion Hn as [sign ip fr ex _ _ _ _ Hv Hc]. unfold number_value in Hv.
    destruct fr, ex; discriminate.
  - inversion Hc.
  - now exists w.
  - destruct (members_text_last _ _ _ Hm) as (m & ->).
    exists (w ++ m). app_norm.
Qed.

(** ** The parser, strategy by strategy *)

Lemma parse_json_file_readable (raw : text) :
  parse_json_file (Readable raw) = parse_content (strip raw).
Proof.
  unfold parse_json_file, read_text. rewrite parse_content_cases.
  destruct (decode (strip raw)) as [[]|];
    try destruct (flat_map line_records (split_lines (strip raw))); reflexivity.
Qed.

Lemma json_loads_ok (s : text) (v : json) :
  json_loads s = Ok v -> decode s = Some v.
Proof.
  unfold json_loads. destruct (decode s); intros H; inversion H; reflexivity.
Qed.

Lemma mapping_elements_filter (items : list json) :
  map JObj (mapping_elements items) = filter is_mapping items.
Proof.
  induction items as [|v items IH]; [reflexivity|].
  unfold mapping_elements in *. destruct v; simpl; rewrite ?IH; reflexivity.
Qed.

(** C6: when the whole-document parse of the (stripped) input text
    succeeds and yields a mapping, the parser returns the one-element
    record sequence holding exactly that mapping. *)
Theorem single_object_one_record (raw : text) (d : dict) :
  json_loads (strip raw) = Ok (JObj d) ->
  parse_json_file (Readable raw) = Ok [d].
Proof.
  intros H. apply json_loads_ok in H.
  rewrite parse_json_file_readable, parse_content_cases, H. reflexivity.
Qed.

Lemma single_object_one_record_witness :
  json_loads (strip (jtxt " {'a': {'b': [1, 2]}} "))
    = Ok (JObj [(txt "a", JObj [(txt "b", JArr [JInt 1; JInt 2])])])
  /\ parse_json_file (Readable (jtxt " {'a': {'b': [1, 2]}} "))
     = Ok [[(txt "a", JObj [(txt "b", JArr [JInt 1; JInt 2])])]].
Proof.
  split; [vm_compute; reflexivity|].
  apply (single_object_one_record (jtxt " {'a': {'b': [1, 2]}} ")).
  vm_compute; reflexivity.
Defined.

(** C5: when the input text parses as a top-level JSON array, the parser
    returns exactly the mapping elements of the array, in their original
    relative order (re-wrapped, they are the array filtered by "is a
    mapping"), as many records as the array has mapping elements; the other
    elements are skipped and are no error. *)
Theorem array_mappings_in_order (raw : text) (items : list json) :
  json_loads (strip raw) = Ok (JArr items) ->
  parse_json_file (Readable raw) = Ok (mapping_elements items)
  /\ map JObj (mapping_elements items) = filter is_mapping items
  /\ length (mapping_elements items) = length (filter is_mapping items).
Proof.
  intros H. apply json_loads_ok in H.
  rewrite parse_json_file_readable, parse_content_cases, H.
  split; [reflexivity|]. split; [apply mapping_elements_filter|].
  rewrite <- mapping_elements_filter. now rewrite length_map.
Qed.

Lemma array_mappings_in_order_witness :
  json_loads (strip (jtxt "[{'a':1},'skip',{'b':2}]"))
    = Ok (JArr [JObj [(txt "a", JInt 1)]; JStr (txt "skip"); JObj [(txt "b", JInt 2)]])
  /\ parse_json_file (Readable (jtxt "[{'a':1},'skip',{'b':2}]"))
     = Ok [[(txt "a", JInt 1)]; [(txt "b", JInt 2)]].
Proof.
  split; [vm_compute; reflexivity|].
  apply (array_mappings_in_order (jtxt "[{'a':1},'skip',{'b':2}]")
           [JObj [(txt "a", JInt 1)]; JStr (txt "skip"); JObj [(txt "b", JInt 2)]]).
  vm_compute; reflexivity.
Defined.

(** C7: on every input text the parser returns a record sequence, possibly
    empty, and raises nothing.  The line pass keeps the records of the lines
    that decode to a mapping and skips every other line; the brace scan
    keeps the records of the candidates that decode to a mapping and skips
    every other candidate; the array pass keeps the mapping elements and
    skips the others. *)
Theorem parser_never_raises (raw : text) :
  (exists objects, parse_json_file (Readable raw) = Ok objects)
  /\ (forall lines objects,
        parse_lines lines objects = Ok (objects ++ flat_map line_records lines))
  /\ (forall content,
        try_concatenated content
        = Ok (flat_map text_records (candidates content content 0 0%Z 0)))
  /\ (forall items, dict_items items [] = mapping_elements items).
Proof.
  split; [|split; [|split]].
  - rewrite parse_json_file_readable, parse_content_cases.
    destruct (decode (strip raw)) as [[]|];
      try destruct (flat_map line_records (split_lines (strip raw))); eauto.
  - apply parse_lines_records.
  - apply try_concatenated_records.
  - intros items. apply dict_items_mapping.
Qed.

(** C1, as stated, fails: the text below parses as a whole to an array
    with no mapping element, its second line is a mapping, and the parser
    returns the empty sequence without going on to the line pass. *)
Lemma array_without_mapping_ends_parse :
  ~ (forall content items,
       json_loads content = Ok (JArr items) ->
       mapping_elements items = [] ->
       parse_content content
       = match try_lines content with
         | Some r => r
         | None => try_concatenated content
         end).
Proof.
  intros H.
  specialize (H (jtxt "[[" ++ NEWLINE :: jtxt "{}" ++ NEWLINE :: jtxt "]]")
                [JArr [JObj []]] eq_refl eq_refl).
  vm_compute in H. discriminate.
Qed.

(** C1, amended: the strategies run in the order of the code and the first
    one that returns ends the parse.  A whole-document parse that yields a
    mapping returns it; one that yields an array returns the mapping
    elements of the array, even when there is none; otherwise the line pass
    returns its records when it found any, and otherwise the brace scan
    runs and its records are returned. *)
Theorem strategies_in_order (content : text) :
  parse_content content
  = match decode content with
    | Some (JObj d) => Ok [d]
    | Some (JArr items) => Ok (mapping_elements items)
    | _ =>
        match flat_map line_records (split_lines content) with
        | [] => try_concatenated content
        | objects => Ok objects
        end
    end.
Proof.
  rewrite parse_content_cases, try_concatenated_records. reflexivity.
Qed.

(** ** The writer and the command *)

Lemma write_records_compact (s : sink) (i1 i2 : option Z) (objects : list dict)
    (k : nat) (written : text) :
  write_records s false i1 objects k written
  = write_records s false i2 objects k written.
Proof.
  revert k written; induction objects as [|obj rest IH]; intros k written; simpl.
  - reflexivity.
  - destruct (write_ok s k (dumps_compact (JObj obj) ++ [NEWLINE])); [apply IH | reflexivity].
Qed.

(** C10: with the pretty flag off, the writer's result and the text it
    writes do not depend on the indent parameter; and the command, run
    without [--pretty], does the same whatever [--indent] is. *)
Theorem compact_output_ignores_indent :
  (forall objects s i1 i2,
      write_jsonl_file objects s false i1 = write_jsonl_file objects s false i2)
  /\ (forall i1 i2 verbose input output,
        main {| arg_pretty := false; arg_indent := i1; arg_verbose := verbose |}
             input output
        = main {| arg_pretty := false; arg_indent := i2; arg_verbose := verbose |}
               input output).
Proof.
  split.
  - intros objects s i1 i2. unfold write_jsonl_file.
    now rewrite (write_records_compact s i1 i2).
  - reflexivity.
Qed.

Lemma write_records_all (s : sink) (pretty : bool) (indent : option Z)
    (objects : list dict) (k : nat) (written : text) :
  all_written s k (map (record_line pretty indent) objects) = true ->
  write_records s pretty indent objects k written
  = (written ++ concat (map (record_line pretty indent) objects), Ok tt).
Proof.
  unfold record_line. destruct pretty.
  all: revert k written; induction objects as [|obj rest IH]; intros k written; simpl.
  all: try (intros _; now rewrite app_nil_r).
  all: intros H; apply andb_true_iff in H as [H1 H2];
    rewrite H1, IH by assumption; now rewrite <- !app_assoc.
Qed.

Lemma write_records_some_fails (s : sink) (pretty : bool) (indent : option Z)
    (objects : list dict) (k : nat) (written : text) :
  all_written s k (map (record_line pretty indent) objects) = false ->
  snd (write_records s pretty indent objects k written) = Raise OtherError.
Proof.
  unfold record_line. destruct pretty.
  all: revert k written; induction objects as [|obj rest IH]; intros k written; simpl.
  all: try discriminate.
  all: destruct (write_ok s k _); simpl; intros H; [now apply IH | reflexivity].
Qed.

Lemma write_jsonl_file_status (objects : list dict) (s : sink)
    (pretty : bool) (indent : option Z) :
  write_jsonl_file objects s pretty indent
  = if open_ok s && all_written s 0 (map (record_line pretty indent) objects)
    then (Some (concat (map (record_line pretty indent) objects)), Ok tt)
    else (fst (write_jsonl_file objects s pretty indent), Raise (SystemExit 1)).
Proof.
  unfold write_jsonl_file. destruct (open_ok s); simpl; [|reflexivity].
  destruct (all_written s 0 (map (record_line pretty indent) objects)) eqn:E.
  - now rewrite write_records_all.
  - pose proof (write_records_some_fails s pretty indent objects 0 [] E) as H.
    destruct (write_records s pretty indent objects 0 []) as [w r]. simpl in H.
    subst r. reflexivity.
Qed.


Lemma parse_content_ok (content : text) :
  exists objects, parse_content content = Ok objects.
Proof.
  rewrite parse_content_cases.
  destruct (decode content) as [[]|];
    try destruct (flat_map line_records (split_lines content)); eauto.
Qed.

(** The sibling writer of gen.py never ends the run: a failure of the sink
    is printed and swallowed. *)
Remark gen_writer_swallows_failure (entries : list dict) (s : sink) (pretty : bool) :
  snd (Gen.write_jsonl_file entries s pretty) = Ok tt.
Proof.
  unfold Gen.write_jsonl_file. destruct (open_ok s); [|reflexivity].
  now destruct (write_records s pretty (Some 2%Z) entries 0 []).
Qed.


(** ** The encoder *)

Lemma json_induction (P : json -> Prop) :
  P JNull -> (forall b, P (JBool b)) -> (forall z, P (JInt z)) ->
  (forall lit, P (JFloat lit)) -> (forall s, P (JStr s)) ->
  (forall items, Forall P items -> P (JArr items)) ->
  (forall members, Forall (fun kv => P (snd kv)) members -> P (JObj members)) ->
  forall v, P v.
Proof.
  intros Hnull Hbool Hint Hfloat Hstr Harr Hobj.
  fix IH 1. intros [| b | z | lit | s | items | members].
  - exact Hnull.
  - apply Hbool.
  - apply Hint.
  - apply Hfloat.
  - apply Hstr.
  - apply Harr. induction items as [|v items IHitems]; constructor; [apply IH | exact IHitems].
  - apply Hobj. induction members as [|[k v] members IHm]; constructor; [apply IH | exact IHm].
Qed.

Lemma text_eqb_eq (a b : text) : text_eqb a b = true <-> a = b.
Proof.
  revert b; induction a as [|x a IH]; intros [|y b]; simpl; split; intros H;
    try reflexivity; try discriminate.
  - apply andb_true_iff in H as [H1 H2]. apply N.eqb_eq in H1. apply IH in H2. now subst.
  - inversion H; subst. rewrite N.eqb_refl. now apply IH.
Qed.

Lemma text_eqb_refl (a : text) : text_eqb a a = true.
Proof. now apply text_eqb_eq. Qed.

Lemma log2_div10 (n : N) : 10 <= n -> N.log2 (n / 10) < N.log2 n.
Proof.
  intros Hn.
  assert (Hm : 0 < n / 10).
  { apply N.div_str_pos. lia. }
  apply N.log2_lt_pow2; [exact Hm|].
  assert (Hspec := N.log2_spec n ltac:(lia)).
  rewrite N.pow_succ_r' in Hspec.
  assert (Hdiv := N.Div0.mul_div_le n 10).
  lia.
Qed.

Lemma digits_value_snoc (ds : text) (c : N) :
  digits_value (ds ++ [c]) = digits_value ds * 10 + (c - 48).
Proof. unfold digits_value. now rewrite fold_left_app. Qed.

Lemma all_digits_app (a b : text) : all_digits a -> all_digits b -> all_digits (a ++ b).
Proof. unfold all_digits; intros Ha Hb. now rewrite forallb_app, Ha, Hb. Qed.

(** The decimal digits of [n]: its value, and no leading zero. *)
Lemma N_digits_fuel_spec (f : nat) :
  forall n, (N.to_nat (N.log2 n) < f)%nat ->
  digits_value (N_digits_fuel f n) = n
  /\ exists d ds, N_digits_fuel f n = d :: ds /\ is_digit d = true
                  /\ all_digits ds /\ (d = 48 -> n = 0 /\ ds = []).
Proof.
  induction f as [|f IH]; intros n Hf; [lia|].
  cbn [N_digits_fuel]. destruct (N.ltb_spec n 10) as [Hlt|Hge].
  - split.
    + unfold digits_value; cbn [fold_left]. lia.
    + exists (48 + n), []. split; [reflexivity|]. split; [unfold is_digit; case_tests|].
      split; [reflexivity|]. intros Hn. split; [lia | reflexivity].
  - assert (Hf' : (N.to_nat (N.log2 (n / 10)) < f)%nat).
    { pose proof (log2_div10 n Hge). lia. }
    destruct (IH _ Hf') as (Hval & d & ds & Hds & Hd & Hall & Hzero).
    split.
    + rewrite digits_value_snoc, Hval.
      pose proof (N.div_mod n 10 ltac:(lia)) as H.
      generalize dependent (n mod 10). generalize dependent (n / 10). clear. intros; lia.
    + exists d, (ds ++ [48 + n mod 10]). rewrite Hds.
      split; [reflexivity|]. split; [exact Hd|]. split.
      * apply all_digits_app; auto. unfold all_digits; cbn [forallb]. rewrite andb_true_r.
        pose proof (N.mod_lt n 10 ltac:(lia)) as Hr.
        generalize dependent (n mod 10). clear. intros r Hr.
        unfold is_digit. case_tests.
      * intros Hd0. destruct (Hzero Hd0) as [Hn0 _].
        assert (0 < n / 10) by (apply N.div_str_pos; lia). lia.
Qed.

Lemma N_digits_spec (n : N) :
  digits_value (N_digits n) = n /\ int_part (N_digits n).
Proof.
  destruct (N_digits_fuel_spec (S (N.to_nat (N.log2 n))) n ltac:(lia))
    as (Hval & d & ds & Hds & Hd & Hall & Hzero).
  unfold N_digits. split; [exact Hval|]. rewrite Hds.
  destruct (N.eq_dec d 48) as [->|Hne].
  - destruct (Hzero eq_refl) as [_ ->]. now left.
  - right. exists d, ds. auto.
Qed.

Lemma int_text (sign ip : text) :
  sign = [] \/ sign = [MINUS] -> int_part ip ->
  number_text (JInt (match sign with
                     | [] => Z.of_N (digits_value ip)
                     | _ => Z.opp (Z.of_N (digits_value ip))
                     end)) (sign ++ ip).
Proof.
  intros Hs Hip.
  pose proof (NT_number sign ip [] [] Hs Hip (or_introl eq_refl) (or_introl eq_refl)) as H.
  unfold number_value in H. rewrite !app_nil_r in H. exact H.
Qed.

Lemma Z_digits_text (z : Z) : number_text (JInt z) (Z_digits z).
Proof.
  destruct z as [|p|p]; unfold Z_digits.
  - destruct (N_digits_spec (Z.to_N 0)) as [Hval Hip].
    pose proof (int_text [] _ (or_introl eq_refl) Hip) as H.
    rewrite Hval in H. exact H.
  - destruct (N_digits_spec (Z.to_N (Zpos p))) as [Hval Hip].
    pose proof (int_text [] _ (or_introl eq_refl) Hip) as H.
    rewrite Hval in H. exact H.
  - destruct (N_digits_spec (Npos p)) as [Hval Hip].
    pose proof (int_text [MINUS] _ (or_intror eq_refl) Hip) as H.
    rewrite Hval in H. exact H.
Qed.

Lemma hex_val_hex_digit (n : N) : n < 16 -> hex_val (hex_digit n) = Some n.
Proof.
  intros Hn. unfold hex_val, hex_digit.
  destruct (N.ltb_spec n 10).
  - replace ((48 <=? 48 + n) && (48 + n <=? 57)) with true by (symmetry; case_tests).
    f_equal. lia.
  - replace ((48 <=? 87 + n) && (87 + n <=? 57)) with false by (symmetry; case_tests).
    replace ((97 <=? 87 + n) && (87 + n <=? 102)) with true by (symmetry; case_tests).
    f_equal. lia.
Qed.

Lemma scanstring_control (c : N) (R : text) :
  c < 32 ->
  scanstring ([BACKSLASH; 117; 48; 48; hex_digit (c / 16); hex_digit (c mod 16)] ++ R)
  = cons_fst c (scanstring R).
Proof.
  intros Hc.
  assert (Hq : c / 16 < 16).
  { apply N.Div0.div_lt_upper_bound. lia. }
  assert (Hr : c mod 16 < 16) by (apply N.mod_lt; lia).
  assert (Hdm := N.div_mod c 16 ltac:(lia)).
  cbn [app scanstring]. change (BACKSLASH =? QUOTE) with false.
  change (BACKSLASH =? BACKSLASH) with true. change (117 =? 117) with true. cbv iota.
  unfold hex4. change (hex_val 48) with (Some 0).
  rewrite !hex_val_hex_digit by assumption.
  replace (((0 * 16 + 0) * 16 + c / 16) * 16 + c mod 16) with c
    by (generalize dependent (c / 16); generalize dependent (c mod 16); intros; lia).
  replace (is_high_surrogate c) with false; [reflexivity|].
  unfold is_high_surrogate. symmetry. case_tests.
Qed.

Lemma scanstring_escape (c : N) (R : text) :
  scanstring (escape_char c ++ R) = cons_fst c (scanstring R).
Proof.
  unfold escape_char.
  destruct (N.eqb_spec c QUOTE) as [->|Hq]; [reflexivity|].
  destruct (N.eqb_spec c BACKSLASH) as [->|Hb]; [reflexivity|].
  destruct (N.eqb_spec c 10) as [->|H10]; [reflexivity|].
  destruct (N.eqb_spec c 13) as [->|H13]; [reflexivity|].
  destruct (N.eqb_spec c 9) as [->|H9]; [reflexivity|].
  destruct (N.eqb_spec c 8) as [->|H8]; [reflexivity|].
  destruct (N.eqb_spec c 12) as [->|H12]; [reflexivity|].
  destruct (N.ltb_spec c 32) as [Hlt|Hge]; [now apply scanstring_control|].
  cbn [app scanstring].
  apply N.eqb_neq in Hq, Hb. rewrite Hq, Hb.
  apply N.ltb_ge in Hge. now rewrite Hge.
Qed.

(** A string as the encoder writes it is read back as the same string. *)
Lemma encode_string_lit (s : text) :
  string_lit s (flat_map escape_char s ++ [QUOTE]).
Proof.
  intros x. induction s as [|c s IH]; [reflexivity|].
  cbn [flat_map]. rewrite <- !app_assoc, scanstring_escape.
  rewrite app_assoc, IH. reflexivity.
Qed.

Lemma escape_char_no_newline (c : N) :
  Forall (fun ch => ch <> NEWLINE) (escape_char c).
Proof.
  unfold escape_char, NEWLINE.
  assert (Hhex : forall n, hex_digit n <> 10).
  { intros n. unfold hex_digit. destruct (N.ltb_spec n 10); lia. }
  destruct (N.eqb_spec c QUOTE); [repeat constructor; discriminate|].
  destruct (N.eqb_spec c BACKSLASH); [repeat constructor; discriminate|].
  destruct (N.eqb_spec c 10); [repeat constructor; discriminate|].
  destruct (N.eqb_spec c 13); [repeat constructor; discriminate|].
  destruct (N.eqb_spec c 9); [repeat constructor; discriminate|].
  destruct (N.eqb_spec c 8); [repeat constructor; discriminate|].
  destruct (N.eqb_spec c 12); [repeat constructor; discriminate|].
  destruct (c <? 32); repeat constructor; try discriminate; auto.
Qed.

Lemma encode_string_no_newline (s : text) :
  Forall (fun ch => ch <> NEWLINE) (encode_string s).
Proof.
  unfold encode_string. constructor; [discriminate|].
  apply Forall_app; split; [|repeat constructor; discriminate].
  induction s as [|c s IH]; simpl; [constructor|].
  apply Forall_app; split; [apply escape_char_no_newline | exact IH].
Qed.

(** ** The characters of numbers and names *)

Lemma all_digits_range (ds : text) :
  all_digits ds -> Forall (fun ch => 43 <= ch <= 121) ds.
Proof.
  unfold all_digits. induction ds as [|d ds IH]; simpl; intros H; constructor.
  - apply andb_true_iff in H as [H _]. char_facts. lia.
  - apply IH. now apply andb_true_iff in H as [_ H].
Qed.

Lemma number_text_range (v : json) (c : text) :
  number_text v c -> Forall (fun ch => 43 <= ch <= 121) c.
Proof.
  intros [sign ip fr ex Hsg Hip Hfr Hex].
  repeat (apply Forall_app; split).
  - destruct Hsg as [->| ->]; repeat constructor; unfold MINUS; lia.
  - destruct Hip as [->|(d & ds & -> & Hd & _ & Hds)].
    + repeat constructor; lia.
    + apply (all_digits_range (d :: ds)). unfold all_digits; simpl. now rewrite Hd.
  - destruct Hfr as [->|(d & ds & -> & Hd & Hds)]; [constructor|].
    constructor; [unfold DOT; lia|].
    apply (all_digits_range (d :: ds)). unfold all_digits; simpl. now rewrite Hd.
  - destruct Hex as [->|(e & sg & d & ds & -> & He & Hsg' & Hd & Hds)]; [constructor|].
    constructor; [destruct He; subst; lia|].
    apply Forall_app; split.
    + destruct Hsg' as [->|[->| ->]]; repeat constructor; unfold PLUS, MINUS; lia.
    + apply (all_digits_range (d :: ds)). unfold all_digits; simpl. now rewrite Hd.
Qed.

Lemma const_text_range (v : json) (c : text) :
  const_text v c -> Forall (fun ch => 43 <= ch <= 121) c.
Proof. intros H; destruct H; repeat constructor; lia. Qed.

(** A float that is a float is a text of the grammar. *)
Lemma valid_float_text (lit : text) :
  valid_float lit = true ->
  value_text (JFloat lit) lit /\ Forall (fun ch => 43 <= ch <= 121) lit.
Proof.
  unfold valid_float. intros H.
  apply orb_true_iff in H as [H|H].
  - apply orb_true_iff in H as [H|H]; [apply orb_true_iff in H as [H|H]|];
      apply text_eqb_eq in H; subst lit.
    + split; [apply VT_const; constructor | apply (const_text_range _ _ CT_nan)].
    + split; [apply VT_const; constructor | apply (const_text_range _ _ CT_inf)].
    + split; [apply VT_const; constructor | apply (const_text_range _ _ CT_neg_inf)].
  - destruct (lex_number lit) as [[v r]|] eqn:E; [|discriminate].
    destruct v; try discriminate. destruct r; [|discriminate].
    apply lex_number_sound in E as (c & Hc & Hn). rewrite app_nil_r in Hc. subst c.
    assert (Hl : lit0 = lit).
    { inversion Hn as [sign ip fr ex _ _ _ _ Hv Hc]. unfold number_value in Hv.
      destruct fr, ex; try discriminate; now inversion Hv. }
    subst lit0. split; [now apply VT_number | now apply (number_text_range _ _ Hn)].
Qed.

(** ** The compact encoding *)

Lemma encode_compact_array (level : nat) (a : json) (l : list json) :
  encode [COMMA] [COLON] None level (JArr (a :: l))
  = LBRACKET :: join [COMMA] (map (encode [COMMA] [COLON] None (S level)) (a :: l))
    ++ [RBRACKET].
Proof. reflexivity. Qed.

Lemma encode_compact_object (level : nat) (a : text * json) (l : list (text * json)) :
  encode [COMMA] [COLON] None level (JObj (a :: l))
  = LBRACE :: join [COMMA]
      (map (fun kv => encode_string (fst kv) ++ [COLON]
                      ++ encode [COMMA] [COLON] None (S level) (snd kv)) (a :: l))
    ++ [RBRACE].
Proof. reflexivity. Qed.

Lemma Forall_join (P : N -> Prop) (sep : text) (parts : list text) :
  Forall P sep -> Forall (Forall P) parts -> Forall P (join sep parts).
Proof.
  intros Hsep. induction 1 as [|p ps Hp Hps IH]; [constructor|].
  destruct ps as [|p' ps]; [exact Hp|].
  change (join sep (p :: p' :: ps)) with (p ++ sep ++ join sep (p' :: ps)).
  repeat (apply Forall_app; split); auto.
Qed.

Lemma unique_keys_NoDup (ks : list text) : unique_keys ks = true -> NoDup ks.
Proof.
  induction ks as [|k ks IH]; simpl; intros H; constructor.
  - apply andb_true_iff in H as [H _]. apply negb_true_iff in H.
    intros Hin. assert (existsb (text_eqb k) ks = true); [|congruence].
    apply existsb_exists. exists k. split; [exact Hin | apply text_eqb_refl].
  - apply IH. now apply andb_true_iff in H as [_ H].
Qed.

Lemma dict_set_fresh (k : text) (v : json) (d : dict) :
  ~ In k (map fst d) -> dict_set k v d = d ++ [(k, v)].
Proof.
  induction d as [|[k' v'] d IH]; simpl; intros Hin; [reflexivity|].
  destruct (text_eqb k' k) eqn:E.
  - apply text_eqb_eq in E. subst. tauto.
  - rewrite IH; tauto.
Qed.

(** The elements of an array, written one after the other with commas. *)
Lemma elements_of_values (enc : json -> text) (items : list json) :
  Forall (fun v => value_text v (enc v)) items -> items <> [] ->
  forall acc,
    elements_text acc (rev acc ++ items) (join [COMMA] (map enc items) ++ [RBRACKET]).
Proof.
  induction 1 as [|v items Hv Hitems IH]; intros Hne acc; [contradiction|].
  destruct items as [|v' items].
  - pose proof (ET_last acc v (enc v) [] Hv eq_refl) as H.
    simpl in *. exact H.
  - pose proof (ET_more acc v (enc v) [] [] _ _ Hv eq_refl eq_refl
                  (IH ltac:(discriminate) (v :: acc))) as H.
    simpl in H. rewrite <- app_assoc in H. simpl in H.
    change (join [COMMA] (map enc (v :: v' :: items)))
      with (enc v ++ [COMMA] ++ join [COMMA] (map enc (v' :: items))).
    rewrite <- !app_assoc. exact H.
Qed.

(** The members of an object with fresh keys, written the same way. *)
Lemma members_of_values (enc : json -> text) (members : list (text * json)) :
  Forall (fun kv => value_text (snd kv) (enc (snd kv))) members -> members <> [] ->
  forall acc,
    NoDup (map fst (acc ++ members)) ->
    members_text acc (acc ++ members)
      (join [COMMA] (map (fun kv => encode_string (fst kv) ++ [COLON] ++ enc (snd kv))
                         members) ++ [RBRACE]).
Proof.
  induction 1 as [|[k v] members Hv Hmembers IH]; intros Hne acc Hnd; [contradiction|].
  assert (Hfresh : ~ In k (map fst acc)).
  { rewrite map_app in Hnd. simpl in Hnd. apply NoDup_remove_2 in Hnd.
    intros Hin. apply Hnd. apply in_or_app. now left. }
  simpl in Hv.
  destruct members as [|kv' members].
  - pose proof (MT_last acc k _ [] [] v (enc v) [] (encode_string_lit k)
                  eq_refl eq_refl Hv eq_refl) as H.
    rewrite dict_set_fresh in H by assumption.
    unfold encode_string. simpl in *. rewrite <- !app_assoc in *. exact H.
  - assert (Hnd' : NoDup (map fst ((acc ++ [(k, v)]) ++ kv' :: members))).
    { now rewrite <- app_assoc. }
    pose proof (IH ltac:(discriminate) (acc ++ [(k, v)]) Hnd') as Hrest.
    rewrite <- (dict_set_fresh k v acc Hfresh) in Hrest at 1.
    pose proof (MT_more acc k _ [] [] v (enc v) [] [] _ _ (encode_string_lit k)
                  eq_refl eq_refl Hv eq_refl eq_refl Hrest) as H.
    rewrite <- app_assoc in H. simpl in H.
    change (join [COMMA] (map (fun kv => encode_string (fst kv) ++ [COLON] ++ enc (snd kv))
                              ((k, v) :: kv' :: members)))
      with ((encode_string k ++ [COLON] ++ enc v) ++ [COMMA]
            ++ join [COMMA] (map (fun kv => encode_string (fst kv) ++ [COLON] ++ enc (snd kv))
                                 (kv' :: members))).
    unfold encode_string at 1. simpl. rewrite <- !app_assoc in *. simpl in *.
    rewrite <- !app_assoc in *. exact H.
Qed.

(** The compact encoding of a value is a text of the grammar for that
    value, and it holds no newline. *)
Lemma encode_compact_text (v : json) :
  forall level, well_formed v = true ->
  value_text v (encode [COMMA] [COLON] None level v)
  /\ Forall (fun ch => ch <> NEWLINE) (encode [COMMA] [COLON] None level v).
Proof.
  induction v as [| b | z | lit | s | items IH | members IH] using json_induction;
    intros level Hwf.
  - split; [apply VT_const; constructor | repeat constructor; discriminate].
  - destruct b; (split; [apply VT_const; constructor | repeat constructor; discriminate]).
  - pose proof (Z_digits_text z) as H. split; [now apply VT_number|].
    apply number_text_range in H. simpl. eapply Forall_impl; [|exact H].
    unfold NEWLINE. intros ch Hch. cbv beta in Hch. lia.
  - simpl in Hwf. apply valid_float_text in Hwf as [Hv Hr]. split; [exact Hv|].
    simpl. eapply Forall_impl; [|exact Hr]. unfold NEWLINE. intros ch Hch. cbv beta in Hch. lia.
  - split; [apply VT_string, encode_string_lit | apply encode_string_no_newline].
  - destruct items as [|a l].
    { split; [apply (VT_empty_array []); reflexivity | repeat constructor; discriminate]. }
    rewrite encode_compact_array.
    assert (Hall : Forall (fun v => value_text v (encode [COMMA] [COLON] None (S level) v)
                      /\ Forall (fun ch => ch <> NEWLINE)
                                (encode [COMMA] [COLON] None (S level) v)) (a :: l)).
    { cbn [well_formed] in Hwf. rewrite forallb_forall in Hwf.
      rewrite Forall_forall in IH |- *. intros x Hx. apply IH; auto. }
    split.
    + apply (VT_array [] (a :: l)); [reflexivity|].
      apply (elements_of_values _ (a :: l)); [|discriminate].
      eapply Forall_impl; [|exact Hall]. intros x [Hx _]. exact Hx.
    + constructor; [discriminate|]. apply Forall_app; split; [|repeat constructor; discriminate].
      apply Forall_join; [repeat constructor; discriminate|].
      rewrite Forall_forall. intros t Ht. apply in_map_iff in Ht as (x & <- & Hx).
      rewrite Forall_forall in Hall. now apply Hall.
  - destruct members as [|a l].
    { split; [apply (VT_empty_object []); reflexivity | repeat constructor; discriminate]. }
    rewrite encode_compact_object.
    cbn [well_formed] in Hwf. apply andb_true_iff in Hwf as [Hkeys Hvals].
    assert (Hall : Forall (fun kv => value_text (snd kv)
                                       (encode [COMMA] [COLON] None (S level) (snd kv))
                      /\ Forall (fun ch => ch <> NEWLINE)
                                (encode [COMMA] [COLON] None (S level) (snd kv))) (a :: l)).
    { rewrite forallb_forall in Hvals.
      rewrite Forall_forall in IH |- *. intros x Hx. apply IH; auto. }
    split.
    + apply (VT_object [] (a :: l)); [reflexivity|].
      apply (members_of_values (encode [COMMA] [COLON] None (S level)) (a :: l) ) with (acc := []).
      * eapply Forall_impl; [|exact Hall]. intros x [Hx _]. exact Hx.
      * discriminate.
      * now apply unique_keys_NoDup.
    + constructor; [discriminate|]. apply Forall_app; split; [|repeat constructor; discriminate].
      apply Forall_join; [repeat constructor; discriminate|].
      rewrite Forall_forall. intros t Ht. apply in_map_iff in Ht as (x & <- & Hx).
      rewrite Forall_forall in Hall.
      apply Forall_app; split; [apply encode_string_no_newline|].
      apply Forall_app; split; [repeat constructor; discriminate|]. now apply Hall.
Qed.

(** ** The lines of the compact writer *)

Lemma dumps_compact_record (d : dict) :
  record_ok d = true ->
  value_text (JObj d) (dumps_compact (JObj d))
  /\ ~ In NEWLINE (dumps_compact (JObj d)).
Proof.
  intros H. destruct (encode_compact_text (JObj d) 0 H) as [Hv Hn].
  split; [exact Hv|]. intros Hin. rewrite Forall_forall in Hn. now apply (Hn _ Hin).
Qed.

Lemma all_written_total (s : sink) (lines : list text) (k : nat) :
  (forall k t, write_ok s k t = true) -> all_written s k lines = true.
Proof.
  intros H. revert k; induction lines as [|l lines IH]; intros k; simpl; [reflexivity|].
  now rewrite H, IH.
Qed.

Lemma count_newlines (objects : list dict) :
  Forall (fun o => ~ In NEWLINE (dumps_compact (JObj o))) objects ->
  count_occ N.eq_dec (concat (map (record_line false None) objects)) NEWLINE
  = length objects.
Proof.
  induction 1 as [|o objects Ho _ IH]; [reflexivity|].
  cbn [map concat length]. rewrite count_occ_app, IH.
  unfold record_line. rewrite count_occ_app.
  rewrite (proj1 (count_occ_not_In N.eq_dec _ _) Ho). reflexivity.
Qed.

(** C9: for every sequence of N records, the writer in compact mode, on an
    output that takes every write, writes for each record its compact
    serialization, which holds no newline, followed by one newline
    character, the last record included; the output holds exactly N newline
    characters, that is N lines. *)
Theorem compact_writer_one_line_per_record (objects : list dict) (s : sink)
    (indent : option Z) :
  forallb record_ok objects = true ->
  open_ok s = true ->
  (forall k t, write_ok s k t = true) ->
  write_jsonl_file objects s false indent
  = (Some (concat (map (fun o => dumps_compact (JObj o) ++ [NEWLINE]) objects)), Ok tt)
  /\ Forall (fun o => ~ In NEWLINE (dumps_compact (JObj o))) objects
  /\ count_occ N.eq_dec
       (concat (map (fun o => dumps_compact (JObj o) ++ [NEWLINE]) objects)) NEWLINE
     = length objects.
Proof.
  intros Hok Hopen Hwrite.
  assert (Hnl : Forall (fun o => ~ In NEWLINE (dumps_compact (JObj o))) objects).
  { rewrite forallb_forall in Hok. rewrite Forall_forall. intros o Ho.
    now apply dumps_compact_record, Hok. }
  split; [|split; [exact Hnl | now apply count_newlines]].
  rewrite write_jsonl_file_status, Hopen, all_written_total by assumption.
  reflexivity.
Qed.

Lemma compact_writer_one_line_per_record_witness :
  let objects := [[(txt "a", JInt 1); (txt "n", JStr [NEWLINE])]; [(txt "b", JArr [JInt 2; JNull])]] in
  let s := {| open_ok := true; write_ok := fun _ _ => true |} in
  forallb record_ok objects = true
  /\ write_jsonl_file objects s false (Some 4%Z)
     = (Some (jtxt "{'a':1,'n':'\n'}" ++ NEWLINE :: jtxt "{'b':[2,null]}" ++ [NEWLINE]), Ok tt).
Proof.
  split; [vm_compute; reflexivity|].
  apply (compact_writer_one_line_per_record
           [[(txt "a", JInt 1); (txt "n", JStr [NEWLINE])]; [(txt "b", JArr [JInt 2; JNull])]]
           {| open_ok := true; write_ok := fun _ _ => true |} (Some 4%Z));
    [vm_compute; reflexivity | reflexivity | intros; reflexivity].
Defined.

(** ** Stripping *)

Lemma all_ws_space (w : text) : all_ws w -> all_space w.
Proof.
  unfold all_ws, all_space. induction w as [|c w IH]; simpl; [reflexivity|].
  intros H. apply andb_true_iff in H as [Hc Hw]. now rewrite (is_ws_isspace c Hc), IH.
Qed.

Lemma all_space_app (a b : text) : all_space a -> all_space b -> all_space (a ++ b).
Proof. unfold all_space; intros Ha Hb. now rewrite forallb_app, Ha, Hb. Qed.

Lemma all_space_rev (a : text) : all_space a -> all_space (rev a).
Proof.
  unfold all_space. rewrite !forallb_forall. intros H c Hc. apply H. now apply in_rev.
Qed.

Lemma lstrip_app_space (a x : text) : all_space a -> lstrip (a ++ x) = lstrip x.
Proof.
  unfold all_space. induction a as [|c a IH]; simpl; intros H; [reflexivity|].
  apply andb_true_iff in H as [Hc Ha]. rewrite Hc. auto.
Qed.

Lemma lstrip_stop (c : N) (x : text) : py_isspace c = false -> lstrip (c :: x) = c :: x.
Proof. intros H; simpl; now rewrite H. Qed.

Lemma lstrip_split (s : text) : exists w, s = w ++ lstrip s /\ all_space w.
Proof.
  induction s as [|c s (w & Hs & Hw)]; [exists []; split; reflexivity|].
  simpl. destruct (py_isspace c) eqn:E.
  - exists (c :: w). split; [simpl; congruence|]. unfold all_space; simpl. now rewrite E.
  - exists []. split; reflexivity.
Qed.

Lemma lstrip_head (s : text) :
  match lstrip s with [] => True | c :: _ => py_isspace c = false end.
Proof.
  induction s as [|c s IH]; simpl; [exact I|].
  destruct (py_isspace c) eqn:E; [exact IH | exact E].
Qed.

Lemma rstrip_app_space (x b : text) : all_space b -> rstrip (x ++ b) = rstrip x.
Proof.
  intros Hb. unfold rstrip. rewrite rev_app_distr, lstrip_app_space; auto using all_space_rev.
Qed.

Lemma rstrip_stop (x : text) (c : N) :
  py_isspace c = false -> rstrip (x ++ [c]) = x ++ [c].
Proof.
  intros Hc. unfold rstrip. rewrite rev_app_distr. simpl. rewrite Hc.
  change (c :: rev x) with ([c] ++ rev x). rewrite rev_app_distr, rev_involutive. reflexivity.
Qed.

Lemma rstrip_split (s : text) : exists w, s = rstrip s ++ w /\ all_space w.
Proof.
  destruct (lstrip_split (rev s)) as (w & Hs & Hw).
  exists (rev w). split; [|now apply all_space_rev].
  unfold rstrip. rewrite <- rev_app_distr, <- Hs. now rewrite rev_involutive.
Qed.

Lemma rstrip_last (s : text) :
  rstrip s = [] \/ exists m c, rstrip s = m ++ [c] /\ py_isspace c = false.
Proof.
  unfold rstrip. pose proof (lstrip_head (rev s)) as H.
  destruct (lstrip (rev s)) as [|c l]; [now left|].
  right. exists (rev l), c. split; [reflexivity | exact H].
Qed.

(** A text between two runs of white space, with no white space at its
    own ends, is what stripping leaves. *)
Lemma strip_unique (a b m : text) (h c : N) (t : text) :
  all_space a -> all_space b ->
  h :: t = m ++ [c] -> py_isspace h = false -> py_isspace c = false ->
  strip (a ++ (h :: t) ++ b) = h :: t.
Proof.
  intros Ha Hb Hm Hh Hc. unfold strip.
  rewrite lstrip_app_space by assumption.
  change ((h :: t) ++ b) with (h :: t ++ b). rewrite lstrip_stop by assumption.
  change (h :: t ++ b) with ((h :: t) ++ b).
  rewrite rstrip_app_space by assumption. rewrite Hm. now apply rstrip_stop.
Qed.

Lemma lstrip_app (x y : text) :
  lstrip (x ++ y) = if forallb py_isspace x then lstrip y else lstrip x ++ y.
Proof.
  induction x as [|c x IH]; simpl; [reflexivity|].
  destruct (py_isspace c); simpl; [exact IH | reflexivity].
Qed.

Lemma strip_space_cons (c : N) (l : text) :
  py_isspace c = true -> strip (c :: l) = strip l.
Proof. intros H. unfold strip. simpl. now rewrite H. Qed.

Lemma strip_space_snoc (l : text) (c : N) :
  py_isspace c = true -> strip (l ++ [c]) = strip l.
Proof.
  intros H. unfold strip. rewrite lstrip_app.
  destruct (forallb py_isspace l) eqn:E.
  - simpl. rewrite H. replace (lstrip l) with (@nil N); [reflexivity|].
    symmetry. rewrite <- (app_nil_r l). now rewrite lstrip_app_space.
  - apply rstrip_app_space. unfold all_space; simpl. now rewrite H.
Qed.

(** ** Lines *)

Lemma split_lines_snoc (p : text) (c : N) :
  exists init lst,
    split_lines p = init ++ [lst]
    /\ split_lines (p ++ [c])
       = if c =? NEWLINE then init ++ [lst; []] else init ++ [lst ++ [c]].
Proof.
  induction p as [|a p (init & lst & Hp & Hpc)].
  - exists [], []. split; [reflexivity|]. simpl. now destruct (c =? NEWLINE).
  - cbn [app split_lines]. destruct (a =? NEWLINE).
    + exists ([] :: init), lst. rewrite Hp, Hpc. split; [reflexivity|].
      now destruct (c =? NEWLINE).
    + rewrite Hp, Hpc. destruct init as [|i0 init].
      * exists [], (a :: lst). split; [reflexivity|]. now destruct (c =? NEWLINE).
      * exists ((a :: i0) :: init), lst. split; [reflexivity|]. now destruct (c =? NEWLINE).
Qed.

Lemma line_records_space_cons (c : N) (l : text) :
  py_isspace c = true -> line_records (c :: l) = line_records l.
Proof. intros H. unfold line_records. now rewrite strip_space_cons. Qed.

Lemma line_records_space_snoc (l : text) (c : N) :
  py_isspace c = true -> line_records (l ++ [c]) = line_records l.
Proof. intros H. unfold line_records. now rewrite strip_space_snoc. Qed.

Lemma newline_is_space : py_isspace NEWLINE = true.
Proof. reflexivity. Qed.

(** White space at the end of a text adds no record to its lines. *)
Lemma lines_records_app_space (w : text) :
  all_space w -> forall p,
  flat_map line_records (split_lines (p ++ w)) = flat_map line_records (split_lines p).
Proof.
  unfold all_space. induction w as [|c w IH]; intros Hw p; [now rewrite app_nil_r|].
  simpl in Hw. apply andb_true_iff in Hw as [Hc Hw].
  change (p ++ c :: w) with (p ++ [c] ++ w). rewrite app_assoc, IH by assumption.
  destruct (split_lines_snoc p c) as (init & lst & -> & ->).
  destruct (c =? NEWLINE).
  - rewrite !flat_map_app. simpl. now rewrite app_nil_r.
  - rewrite !flat_map_app. simpl. now rewrite line_records_space_snoc.
Qed.

Lemma split_lines_nonempty (s : text) : split_lines s <> [].
Proof.
  induction s as [|c s IH]; [discriminate|].
  cbn [split_lines]. destruct (c =? NEWLINE); [discriminate|].
  destruct (split_lines s); discriminate.
Qed.

(** White space at the head of a text adds none either. *)
Lemma lines_records_lstrip (s : text) :
  flat_map line_records (split_lines (lstrip s)) = flat_map line_records (split_lines s).
Proof.
  induction s as [|c s IH]; [reflexivity|].
  cbn [lstrip]. destruct (py_isspace c) eqn:E; [|reflexivity].
  rewrite IH. cbn [split_lines]. destruct (c =? NEWLINE); [reflexivity|].
  pose proof (split_lines_nonempty s) as Hne.
  destruct (split_lines s) as [|l ls]; [contradiction|].
  cbn [flat_map]. now rewrite line_records_space_cons.
Qed.

Lemma lines_records_strip (s : text) :
  flat_map line_records (split_lines (strip s)) = flat_map line_records (split_lines s).
Proof.
  unfold strip. destruct (rstrip_split (lstrip s)) as (w & Hs & Hw).
  transitivity (flat_map line_records (split_lines (lstrip s)));
    [|apply lines_records_lstrip].
  rewrite <- (lines_records_app_space w Hw (rstrip (lstrip s))). now rewrite <- Hs.
Qed.

Lemma split_lines_one (t : text) : ~ In NEWLINE t -> split_lines t = [t].
Proof.
  induction t as [|c t IH]; intros Hin; [reflexivity|].
  cbn [split_lines]. destruct (N.eqb_spec c NEWLINE) as [->|Hc].
  - exfalso. apply Hin. now left.
  - rewrite IH; [reflexivity|]. intros H. apply Hin. now right.
Qed.

Lemma split_lines_first (t r : text) :
  ~ In NEWLINE t -> split_lines (t ++ NEWLINE :: r) = t :: split_lines r.
Proof.
  induction t as [|c t IH]; intros Hin; [reflexivity|].
  cbn [app split_lines]. destruct (N.eqb_spec c NEWLINE) as [->|Hc].
  - exfalso. apply Hin. now left.
  - rewrite IH; [reflexivity|]. intros H. apply Hin. now right.
Qed.

Lemma join_cons (sep p : text) (ps : list text) :
  ps <> [] -> join sep (p :: ps) = p ++ sep ++ join sep ps.
Proof. destruct ps; [contradiction | reflexivity]. Qed.

Lemma split_lines_join (ts : list text) :
  ts <> [] -> Forall (fun t => ~ In NEWLINE t) ts ->
  split_lines (join [NEWLINE] ts) = ts.
Proof.
  intros Hne H. induction H as [|t ts Ht Hts IH]; [contradiction|].
  destruct ts as [|t' ts]; [now apply split_lines_one|].
  rewrite join_cons by discriminate. cbn [app].
  rewrite split_lines_first by assumption. now rewrite IH.
Qed.

(** ** One object per line *)

Lemma decode_object_shape (t : text) (o : dict) :
  decode t = Some (JObj o) ->
  exists w1 m w2,
    t = w1 ++ (LBRACE :: m ++ [RBRACE]) ++ w2 /\ all_ws w1 /\ all_ws w2
    /\ value_text (JObj o) (LBRACE :: m ++ [RBRACE]).
Proof.
  intros H. apply decode_sound in H as (w1 & c & w2 & -> & Hw1 & Hw2 & Hv).
  destruct (object_text_shape _ _ Hv) as (m & ->).
  exists w1, m, w2. auto.
Qed.

Lemma strip_object (a b m : text) :
  all_space a -> all_space b ->
  strip (a ++ (LBRACE :: m ++ [RBRACE]) ++ b) = LBRACE :: m ++ [RBRACE].
Proof.
  intros Ha Hb. apply (strip_unique a b (LBRACE :: m) LBRACE RBRACE); auto.
Qed.

Lemma decode_object_text (o : dict) (c : text) :
  value_text (JObj o) c -> decode c = Some (JObj o).
Proof.
  intros Hv. pose proof (decode_complete _ c [] [] Hv eq_refl eq_refl) as H.
  simpl in H. now rewrite app_nil_r in H.
Qed.

Lemma line_records_object (t : text) (o : dict) :
  decode t = Some (JObj o) -> line_records t = [o].
Proof.
  intros H. destruct (decode_object_shape t o H) as (w1 & m & w2 & -> & Hw1 & Hw2 & Hv).
  unfold line_records. rewrite strip_object by auto using all_ws_space.
  unfold text_records. now rewrite (decode_object_text o _ Hv).
Qed.

Lemma lines_of_objects (ts : list text) (os : list dict) :
  Forall2 (fun t o => json_loads t = Ok (JObj o) /\ ~ In NEWLINE t) ts os ->
  flat_map line_records ts = os /\ Forall (fun t => ~ In NEWLINE t) ts.
Proof.
  induction 1 as [|t o ts os [Ht Hn] _ [IH1 IH2]]; [split; [reflexivity | constructor]|].
  apply json_loads_ok in Ht. split; [|now constructor].
  cbn [flat_map]. now rewrite (line_records_object t o Ht), IH1.
Qed.

Lemma rstrip_nonempty (y : text) (c : N) :
  In c y -> py_isspace c = false -> rstrip y <> [].
Proof.
  intros Hin Hc Hr. destruct (rstrip_split y) as (w & Hy & Hw).
  rewrite Hr in Hy. simpl in Hy. subst w.
  unfold all_space in Hw. rewrite forallb_forall in Hw. rewrite (Hw c Hin) in Hc. discriminate.
Qed.

Lemma rstrip_app_keep (x y : text) :
  rstrip y <> [] -> rstrip (x ++ y) = x ++ rstrip y.
Proof.
  intros Hne. destruct (rstrip_split y) as (w & Hy & Hw).
  destruct (rstrip_last y) as [H|(m & c & Hm & Hc)]; [contradiction|].
  rewrite Hy at 1. rewrite Hm. rewrite !app_assoc. rewrite rstrip_app_space by assumption.
  rewrite <- app_assoc. rewrite app_assoc. now apply rstrip_stop.
Qed.

Lemma skip_ws_nonws (x : text) (c : N) :
  In c x -> is_ws c = false -> skip_ws x <> [].
Proof.
  intros Hin Hc Hs. destruct (skip_ws_split x) as (w & Hx & Hw).
  rewrite Hs, app_nil_r in Hx. subst w.
  unfold all_ws in Hw. rewrite forallb_forall in Hw. rewrite (Hw c Hin) in Hc. discriminate.
Qed.

Lemma not_space_not_ws (c : N) : py_isspace c = false -> is_ws c = false.
Proof.
  intros H. destruct (is_ws c) eqn:E; [|reflexivity].
  apply is_ws_isspace in E. congruence.
Qed.

Lemma delim_ws_then (w y : text) (c : N) :
  all_ws w -> delim_start [c] = true -> delim_start (w ++ c :: y) = true.
Proof.
  intros Hw Hc. destruct w as [|c0 w]; [exact Hc|].
  unfold all_ws in Hw; simpl in Hw. apply andb_true_iff in Hw as [Hc0 _].
  simpl. char_facts. case_tests.
Qed.

Lemma delim_start_prefix (x w : text) :
  x <> [] -> delim_start (x ++ w) = true -> delim_start x = true.
Proof. destruct x; [contradiction | auto]. Qed.

Lemma in_join_head (sep p : text) (ps : list text) (c : N) :
  In c p -> In c (join sep (p :: ps)).
Proof.
  intros H. destruct ps; [exact H|]. rewrite join_cons by discriminate.
  apply in_or_app. now left.
Qed.

(** After an object, a newline and another brace: no single document. *)
Lemma decode_after_object_fails (o1 : dict) (w1 m1 w1' R tail : text) :
  all_ws w1 -> all_ws w1' ->
  value_text (JObj o1) (LBRACE :: m1 ++ [RBRACE]) -> In LBRACE R ->
  decode (strip (w1 ++ (LBRACE :: m1 ++ [RBRACE]) ++ w1' ++ NEWLINE :: R ++ tail)) = None.
Proof.
  intros Hw1 Hw1' Hv1 HinR.
  remember (w1' ++ NEWLINE :: R ++ tail) as Y eqn:HY.
  unfold strip. rewrite lstrip_app_space by now apply all_ws_space.
  cbn [app]. rewrite lstrip_stop by reflexivity.
  change (LBRACE :: (m1 ++ [RBRACE]) ++ Y) with ((LBRACE :: m1 ++ [RBRACE]) ++ Y).
  assert (HinY : In LBRACE Y).
  { subst Y. apply in_or_app. right. right. apply in_or_app. now left. }
  assert (Hne : rstrip Y <> []) by (apply (rstrip_nonempty Y LBRACE); auto).
  rewrite rstrip_app_keep by assumption.
  change ((LBRACE :: m1 ++ [RBRACE]) ++ rstrip Y)
    with ([] ++ (LBRACE :: m1 ++ [RBRACE]) ++ rstrip Y).
  apply (decode_extra_data (JObj o1)); auto; [reflexivity| |].
  - destruct (rstrip_split Y) as (w & HY' & _).
    apply (delim_start_prefix _ w Hne). rewrite <- HY'.
    rewrite HY. now apply delim_ws_then.
  - destruct (rstrip_last Y) as [H|(m & c & Hm & Hc)]; [contradiction|].
    apply (skip_ws_nonws _ c); [|now apply not_space_not_ws].
    rewrite Hm. apply in_or_app. right. now left.
Qed.

(** Two objects or more, one per line, are no single document. *)
Lemma decode_lines_fails (t1 t2 : text) (o1 o2 : dict) (rest : list text) (tail : text) :
  decode t1 = Some (JObj o1) -> decode t2 = Some (JObj o2) ->
  decode (strip (join [NEWLINE] (t1 :: t2 :: rest) ++ tail)) = None.
Proof.
  intros H1 H2.
  destruct (decode_object_shape t1 o1 H1) as (w1 & m1 & w1' & Ht1 & Hw1 & Hw1' & Hv1).
  destruct (decode_object_shape t2 o2 H2) as (w2 & m2 & w2' & Ht2 & Hw2 & Hw2' & Hv2).
  assert (HinR : In LBRACE (join [NEWLINE] (t2 :: rest))).
  { apply in_join_head. rewrite Ht2. apply in_or_app. right. now left. }
  rewrite <- (decode_after_object_fails o1 w1 m1 w1' (join [NEWLINE] (t2 :: rest)) tail
                Hw1 Hw1' Hv1 HinR).
  f_equal. f_equal. rewrite join_cons by discriminate. rewrite Ht1. app_norm.
Qed.

Lemma parse_lines_of_objects (ts : list text) (os : list dict) (tail : text) :
  Forall2 (fun t o => json_loads t = Ok (JObj o) /\ ~ In NEWLINE t) ts os ->
  ts <> [] -> all_space tail ->
  parse_content (strip (join [NEWLINE] ts ++ tail)) = Ok os.
Proof.
  intros H Hne Htail.
  destruct (lines_of_objects ts os H) as [Hrec Hnl].
  assert (Hlines : flat_map line_records (split_lines (strip (join [NEWLINE] ts ++ tail))) = os).
  { rewrite lines_records_strip, lines_records_app_space by assumption.
    now rewrite split_lines_join. }
  rewrite parse_content_cases, Hlines.
  destruct H as [|t1 o1 ts os [H1 Hn1] H]; [contradiction|].
  apply json_loads_ok in H1.
  destruct H as [|t2 o2 ts os [H2 Hn2] H].
  - (* a single object: the whole text is that object *)
    destruct (decode_object_shape t1 o1 H1) as (w1 & m1 & w1' & -> & Hw1 & Hw1' & Hv1).
    cbn [join]. rewrite <- !app_assoc.
    rewrite (app_assoc (LBRACE :: m1 ++ [RBRACE])).
    rewrite <- (app_assoc w1' tail) || idtac.
    replace (w1 ++ ((LBRACE :: m1 ++ [RBRACE]) ++ w1') ++ tail)
      with (w1 ++ (LBRACE :: m1 ++ [RBRACE]) ++ (w1' ++ tail)) by app_norm.
    rewrite strip_object by auto using all_ws_space, all_space_app.
    now rewrite (decode_object_text o1 _ Hv1).
  - apply json_loads_ok in H2.
    now rewrite (decode_lines_fails t1 t2 o1 o2 ts tail H1 H2).
Qed.

(** C3: for every text made of N >= 1 valid JSON objects, one per line,
    separated by newlines with no blank line (white space may follow the
    last object, such as a final newline), the parser returns exactly the
    N objects, in the order of the file. *)
Theorem one_object_per_line (ts : list text) (os : list dict) (tail : text) :
  Forall2 (fun t o => json_loads t = Ok (JObj o) /\ ~ In NEWLINE t) ts os ->
  ts <> [] -> all_space tail ->
  parse_json_file (Readable (join [NEWLINE] ts ++ tail)) = Ok os
  /\ length os = length ts.
Proof.
  intros H Hne Htail. split.
  - rewrite parse_json_file_readable. now apply parse_lines_of_objects.
  - symmetry. eapply Forall2_length; eassumption.
Qed.

Lemma one_object_per_line_witness :
  Forall2 (fun t o => json_loads t = Ok (JObj o) /\ ~ In NEWLINE t)
    [jtxt "{'a':1}"; jtxt " {'b': [2.5, '}']} "]
    [[(txt "a", JInt 1)]; [(txt "b", JArr [JFloat (txt "2.5"); JStr (txt "}")])]]
  /\ parse_json_file
       (Readable (jtxt "{'a':1}" ++ NEWLINE :: jtxt " {'b': [2.5, '}']} " ++ [NEWLINE]))
     = Ok [[(txt "a", JInt 1)]; [(txt "b", JArr [JFloat (txt "2.5"); JStr (txt "}")])]].
Proof.
  assert (H : Forall2 (fun t o => json_loads t = Ok (JObj o) /\ ~ In NEWLINE t)
                [jtxt "{'a':1}"; jtxt " {'b': [2.5, '}']} "]
                [[(txt "a", JInt 1)]; [(txt "b", JArr [JFloat (txt "2.5"); JStr (txt "}")])]]).
  { repeat constructor; try (vm_compute; reflexivity);
      intros Hin; vm_compute in Hin; repeat destruct Hin as [Hin|Hin]; try discriminate Hin;
      exact Hin. }
  split; [exact H|].
  apply (one_object_per_line
           [jtxt "{'a':1}"; jtxt " {'b': [2.5, '}']} "]
           [[(txt "a", JInt 1)]; [(txt "b", JArr [JFloat (txt "2.5"); JStr (txt "}")])]]
           [NEWLINE] H); [discriminate | reflexivity].
Defined.

(** ** Writing, then parsing *)

Lemma concat_lines_join (ts : list text) :
  ts <> [] -> concat (map (fun t => t ++ [NEWLINE]) ts) = join [NEWLINE] ts ++ [NEWLINE].
Proof.
  induction ts as [|t ts IH]; intros Hne; [contradiction|].
  destruct ts as [|t' ts]; [simpl; now rewrite app_nil_r|].
  cbn [map concat]. rewrite join_cons by discriminate.
  cbn [map concat] in IH. rewrite IH by discriminate. app_norm.
Qed.

Lemma written_lines (indent : option Z) (objects : list dict) :
  concat (map (record_line false indent) objects)
  = concat (map (fun t => t ++ [NEWLINE]) (map (fun o => dumps_compact (JObj o)) objects)).
Proof. rewrite map_map. reflexivity. Qed.

Lemma dumped_records (objects : list dict) :
  forallb record_ok objects = true ->
  Forall2 (fun t o => json_loads t = Ok (JObj o) /\ ~ In NEWLINE t)
    (map (fun o => dumps_compact (JObj o)) objects) objects.
Proof.
  induction objects as [|o objects IH]; simpl; intros H; constructor.
  - apply andb_true_iff in H as [H _].
    destruct (dumps_compact_record o H) as [Hv Hn]. split; [|exact Hn].
    unfold json_loads. now rewrite (decode_object_text o _ Hv).
  - apply IH. now apply andb_true_iff in H as [_ H].
Qed.

(** C4: for every sequence of records, what the writer writes in compact
    mode, on an output that takes every write, is parsed back by the parser
    into the same sequence: the same records in the same order. *)
Theorem compact_round_trip (objects : list dict) (s : sink) (indent : option Z) :
  forallb record_ok objects = true ->
  open_ok s = true ->
  (forall k t, write_ok s k t = true) ->
  exists written,
    write_jsonl_file objects s false indent = (Some written, Ok tt)
    /\ parse_json_file (Readable written) = Ok objects.
Proof.
  intros Hok Hopen Hwrite.
  exists (concat (map (record_line false indent) objects)). split.
  - rewrite write_jsonl_file_status, Hopen, all_written_total by assumption. reflexivity.
  - rewrite parse_json_file_readable, written_lines.
    destruct objects as [|o objects]; [reflexivity|].
    rewrite concat_lines_join by discriminate.
    apply parse_lines_of_objects; [now apply dumped_records | discriminate | reflexivity].
Qed.

Lemma compact_round_trip_witness :
  let objects := [[(txt "a", JInt (-1)); (txt "s", JStr (jtxt "x}'"))];
                  [(txt "b", JArr [JBool true; JNull; JObj []])]] in
  let s := {| open_ok := true; write_ok := fun _ _ => true |} in
  forallb record_ok objects = true
  /\ exists written,
       write_jsonl_file objects s false None = (Some written, Ok tt)
       /\ parse_json_file (Readable written) = Ok objects.
Proof.
  split; [vm_compute; reflexivity|].
  apply (compact_round_trip
           [[(txt "a", JInt (-1)); (txt "s", JStr (jtxt "x}'"))];
            [(txt "b", JArr [JBool true; JNull; JObj []])]]
           {| open_ok := true; write_ok := fun _ _ => true |} None);
    [vm_compute; reflexivity | reflexivity | intros; reflexivity].
Defined.

(** ** Braces outside string literals *)

Lemma balanced_app (a b : text) : balanced a -> balanced b -> balanced (a ++ b).
Proof.
  intros Ha Hb. induction Ha as [|c m Hc _ IH|m1 m2 H1 _ _ IH2].
  - exact Hb.
  - simpl. now constructor.
  - simpl. rewrite <- app_assoc. simpl. now constructor.
Qed.

Lemma balanced_no_braces (p : text) : no_braces p -> balanced p.
Proof.
  unfold no_braces. induction p as [|c p IH]; simpl; intros H; constructor.
  - apply andb_true_iff in H as [H _]. now apply negb_true_iff in H.
  - apply IH. now apply andb_true_iff in H as [_ H].
Qed.

Lemma walk_outside (p y : text) :
  Forall (fun ch => ch <> QUOTE) p ->
  literals_brace_free Outside (p ++ y) = literals_brace_free Outside y.
Proof.
  induction 1 as [|c p Hc _ IH]; [reflexivity|].
  cbn [app literals_brace_free]. apply N.eqb_neq in Hc. now rewrite Hc.
Qed.

Lemma scalar_range_plain (c : text) :
  Forall (fun ch => 43 <= ch <= 121) c ->
  no_braces c /\ Forall (fun ch => ch <> QUOTE) c.
Proof.
  unfold no_braces. induction 1 as [|ch c Hch _ [IH1 IH2]]; [split; [reflexivity | constructor]|].
  split.
  - simpl. rewrite IH1, andb_true_r. apply negb_true_iff.
    unfold is_brace, LBRACE, RBRACE. case_tests.
  - constructor; [unfold QUOTE; lia | exact IH2].
Qed.

Lemma ws_plain (w : text) :
  all_ws w -> no_braces w /\ Forall (fun ch => ch <> QUOTE) w.
Proof.
  unfold all_ws, no_braces. induction w as [|c w IH]; simpl; intros H.
  - split; [reflexivity | constructor].
  - apply andb_true_iff in H as [Hc Hw]. destruct (IH Hw) as [IH1 IH2]. split.
    + rewrite IH1, andb_true_r. apply negb_true_iff.
      unfold is_brace. char_facts. case_tests.
    + constructor; [|exact IH2]. char_facts. lia.
Qed.

(** A piece of text that is [quiet] matches its braces and leaves a walk
    that started outside the string literals outside of them. *)
Lemma quiet_plain (p : text) :
  no_braces p -> Forall (fun ch => ch <> QUOTE) p ->
  forall y, literals_brace_free Outside (p ++ y) = true ->
            balanced p /\ literals_brace_free Outside y = true.
Proof.
  intros Hb Hq y Hy. rewrite walk_outside in Hy by assumption.
  split; [now apply balanced_no_braces | exact Hy].
Qed.

Lemma quiet_ws (w : text) :
  all_ws w ->
  forall y, literals_brace_free Outside (w ++ y) = true ->
            balanced w /\ literals_brace_free Outside y = true.
Proof. intros Hw. destruct (ws_plain w Hw). now apply quiet_plain. Qed.

Lemma quiet_char (c : N) :
  is_brace c = false -> c <> QUOTE ->
  forall y, literals_brace_free Outside (c :: y) = true ->
            balanced [c] /\ literals_brace_free Outside y = true.
Proof.
  intros Hb Hq y Hy. apply (quiet_plain [c]); auto.
  unfold no_braces; simpl. now rewrite Hb.
Qed.

Lemma quiet_string (str b : text) :
  string_lit str b ->
  forall y, literals_brace_free Outside ((QUOTE :: b) ++ y) = true ->
            balanced (QUOTE :: b) /\ literals_brace_free Outside y = true.
Proof.
  intros Hb y Hy. cbn [app literals_brace_free] in Hy.
  change (QUOTE =? QUOTE) with true in Hy. cbv iota in Hy.
  destruct (string_lit_walk str b y Hb Hy) as [Hnb Hy'].
  split; [|exact Hy']. constructor; [reflexivity | now apply balanced_no_braces].
Qed.

Lemma quiet_app (a b : text) :
  (forall y, literals_brace_free Outside (a ++ y) = true ->
             balanced a /\ literals_brace_free Outside y = true) ->
  (forall y, literals_brace_free Outside (b ++ y) = true ->
             balanced b /\ literals_brace_free Outside y = true) ->
  forall y, literals_brace_free Outside ((a ++ b) ++ y) = true ->
            balanced (a ++ b) /\ literals_brace_free Outside y = true.
Proof.
  intros Ha Hb y Hy. rewrite <- app_assoc in Hy.
  apply Ha in Hy as [Ba Hy]. apply Hb in Hy as [Bb Hy].
  split; [now apply balanced_app | exact Hy].
Qed.

Lemma walk_brace (c : N) (y : text) :
  c = LBRACE \/ c = RBRACE ->
  literals_brace_free Outside (c :: y) = literals_brace_free Outside y.
Proof. intros [->| ->]; reflexivity. Qed.

(** The texts of the grammar, when no brace stands inside their string
    literals: the braces match, and the members of an object end with the
    brace that closes it. *)
Lemma grammar_quiet :
  (forall v c, value_text v c ->
     forall y, literals_brace_free Outside (c ++ y) = true ->
     balanced c /\ literals_brace_free Outside y = true)
  /\ (forall acc d c, members_text acc d c ->
        forall y, literals_brace_free Outside (c ++ y) = true ->
        (exists m, c = m ++ [RBRACE] /\ balanced m)
        /\ literals_brace_free Outside y = true)
  /\ (forall acc l c, elements_text acc l c ->
        forall y, literals_brace_free Outside (c ++ y) = true ->
        balanced c /\ literals_brace_free Outside y = true).
Proof.
  apply value_text_mutind.
  - (* string *)
    intros str b Hb. exact (quiet_string str b Hb).
  - (* number *)
    intros v c Hn. destruct (scalar_range_plain c (number_text_range v c Hn)).
    now apply quiet_plain.
  - (* constant *)
    intros v c Hc. destruct (scalar_range_plain c (const_text_range v c Hc)).
    now apply quiet_plain.
  - (* empty object *)
    intros w Hw y Hy. cbn [app] in Hy. rewrite walk_brace in Hy by auto.
    rewrite <- app_assoc in Hy. apply (quiet_ws w Hw) in Hy as [Bw Hy].
    cbn [app] in Hy. rewrite walk_brace in Hy by auto.
    split; [|exact Hy]. apply (balanced_nest w []); [exact Bw | constructor].
  - (* object *)
    intros w d c Hw Hm IH y Hy. cbn [app] in Hy. rewrite walk_brace in Hy by auto.
    rewrite <- app_assoc in Hy. apply (quiet_ws w Hw) in Hy as [Bw Hy].
    apply IH in Hy as [(m & -> & Bm) Hy]. split; [|exact Hy].
    rewrite app_assoc. apply (balanced_nest (w ++ m) []); [|constructor].
    now apply balanced_app.
  - (* empty array *)
    intros w Hw y Hy. cbn [app] in Hy.
    apply (quiet_char LBRACKET eq_refl ltac:(discriminate)) in Hy as [B1 Hy].
    rewrite <- app_assoc in Hy. apply (quiet_ws w Hw) in Hy as [Bw Hy].
    apply (quiet_char RBRACKET eq_refl ltac:(discriminate)) in Hy as [B2 Hy].
    split; [|exact Hy].
    apply (balanced_app [LBRACKET]); [exact B1|]. now apply balanced_app.
  - (* array *)
    intros w l c Hw He IH y Hy. cbn [app] in Hy.
    apply (quiet_char LBRACKET eq_refl ltac:(discriminate)) in Hy as [B1 Hy].
    rewrite <- app_assoc in Hy. apply (quiet_ws w Hw) in Hy as [Bw Hy].
    apply IH in Hy as [Bc Hy]. split; [|exact Hy].
    apply (balanced_app [LBRACKET]); [exact B1|]. now apply balanced_app.
  - (* last member *)
    intros acc key b w1 w2 v c w3 Hb Hw1 Hw2 Hv IH Hw3 y Hy.
    replace ((QUOTE :: b ++ w1 ++ COLON :: w2 ++ c ++ w3 ++ [RBRACE]) ++ y)
      with ((QUOTE :: b) ++ w1 ++ [COLON] ++ w2 ++ c ++ w3 ++ RBRACE :: y) in Hy by app_norm.
    apply (quiet_string key b Hb) in Hy as [Bk Hy].
    apply (quiet_ws w1 Hw1) in Hy as [B1 Hy].
    apply (quiet_char COLON eq_refl ltac:(discriminate)) in Hy as [Bc Hy].
    apply (quiet_ws w2 Hw2) in Hy as [B2 Hy].
    apply IH in Hy as [Bv Hy].
    apply (quiet_ws w3 Hw3) in Hy as [B3 Hy].
    rewrite walk_brace in Hy by auto. split; [|exact Hy].
    exists ((QUOTE :: b) ++ w1 ++ [COLON] ++ w2 ++ c ++ w3). split; [app_norm|].
    repeat apply balanced_app; assumption.
  - (* a member and more *)
    intros acc key b w1 w2 v c w3 w4 d rest Hb Hw1 Hw2 Hv IH Hw3 Hw4 Hm IHm y Hy.
    replace ((QUOTE :: b ++ w1 ++ COLON :: w2 ++ c ++ w3 ++ COMMA :: w4 ++ rest) ++ y)
      with ((QUOTE :: b) ++ w1 ++ [COLON] ++ w2 ++ c ++ w3 ++ [COMMA] ++ w4 ++ rest ++ y)
      in Hy by app_norm.
    apply (quiet_string key b Hb) in Hy as [Bk Hy].
    apply (quiet_ws w1 Hw1) in Hy as [B1 Hy].
    apply (quiet_char COLON eq_refl ltac:(discriminate)) in Hy as [Bc Hy].
    apply (quiet_ws w2 Hw2) in Hy as [B2 Hy].
    apply IH in Hy as [Bv Hy].
    apply (quiet_ws w3 Hw3) in Hy as [B3 Hy].
    apply (quiet_char COMMA eq_refl ltac:(discriminate)) in Hy as [Bco Hy].
    apply (quiet_ws w4 Hw4) in Hy as [B4 Hy].
    apply IHm in Hy as [(m & -> & Bm) Hy]. split; [|exact Hy].
    exists ((QUOTE :: b) ++ w1 ++ [COLON] ++ w2 ++ c ++ w3 ++ [COMMA] ++ w4 ++ m).
    split; [app_norm|]. repeat apply balanced_app; assumption.
  - (* last element *)
    intros acc v c w Hv IH Hw y Hy. rewrite <- !app_assoc in Hy.
    apply IH in Hy as [Bv Hy]. apply (quiet_ws w Hw) in Hy as [Bw Hy].
    apply (quiet_char RBRACKET eq_refl ltac:(discriminate)) in Hy as [Bb Hy].
    split; [|exact Hy]. repeat apply balanced_app; assumption.
  - (* an element and more *)
    intros acc v c w1 w2 l rest Hv IH Hw1 Hw2 He IHe y Hy.
    replace ((c ++ w1 ++ COMMA :: w2 ++ rest) ++ y)
      with (c ++ w1 ++ [COMMA] ++ w2 ++ rest ++ y) in Hy by app_norm.
    apply IH in Hy as [Bv Hy]. apply (quiet_ws w1 Hw1) in Hy as [B1 Hy].
    apply (quiet_char COMMA eq_refl ltac:(discriminate)) in Hy as [Bco Hy].
    apply (quiet_ws w2 Hw2) in Hy as [B2 Hy].
    apply IHe in Hy as [Br Hy]. split; [|exact Hy].
    change (COMMA :: w2 ++ rest) with ([COMMA] ++ w2 ++ rest).
    repeat apply balanced_app; assumption.
Qed.

(** ** The brace scan *)

(** Inside an open object, a text whose braces match yields no candidate
    and leaves the depth as it was. *)
Lemma candidates_balanced (content m : text) :
  balanced m -> forall rest i d sp, (1 <= d)%Z ->
  candidates content (m ++ rest) i d sp
  = candidates content rest (i + length m) d sp.
Proof.
  induction 1 as [|c m Hc _ IH|m1 m2 _ IH1 _ IH2]; intros rest i d sp Hd.
  - simpl. now rewrite Nat.add_0_r.
  - cbn [app candidates]. unfold is_brace in Hc. apply orb_false_iff in Hc as [H1 H2].
    rewrite H1, H2, IH by assumption. f_equal. simpl. lia.
  - cbn [app candidates]. change (LBRACE =? LBRACE) with true. cbv iota.
    rewrite <- app_assoc. rewrite IH1 by lia.
    cbn [app candidates]. change (RBRACE =? LBRACE) with false.
    change (RBRACE =? RBRACE) with true. cbv iota.
    replace (d + 1 - 1 =? 0)%Z with false by (symmetry; apply Z.eqb_neq; lia).
    replace (d =? 0)%Z with false by (symmetry; apply Z.eqb_neq; lia).
    replace (d + 1 - 1)%Z with d by lia.
    rewrite IH2 by assumption. f_equal. simpl. rewrite length_app. simpl. lia.
Qed.

Lemma slice_middle (pre c rest : text) :
  slice (pre ++ c ++ rest) (length pre) (length pre + length c) = c.
Proof.
  unfold slice. rewrite skipn_app, Nat.sub_diag, skipn_all. simpl.
  replace (length pre + length c - length pre)%nat with (length c + 0)%nat by lia.
  rewrite firstn_app_2. simpl. now rewrite app_nil_r.
Qed.

(** At depth zero, an object whose inner braces match is one candidate. *)
Lemma candidates_object (pre m rest : text) (sp : nat) :
  balanced m ->
  let c := LBRACE :: m ++ [RBRACE] in
  candidates (pre ++ c ++ rest) (c ++ rest) (length pre) 0%Z sp
  = c :: candidates (pre ++ c ++ rest) rest (length pre + length c) 0%Z (length pre).
Proof.
  intros Hm c. unfold c at 2. cbn [app candidates].
  change (LBRACE =? LBRACE) with true. cbv iota.
  change (0 =? 0)%Z with true. cbv iota.
  rewrite <- app_assoc. rewrite (candidates_balanced _ m Hm) by lia.
  cbn [app candidates]. change (RBRACE =? LBRACE) with false.
  change (RBRACE =? RBRACE) with true. cbv iota.
  change (0 + 1 - 1 =? 0)%Z with true. cbv iota.
  assert (Hlen : (S (length pre) + length m + 1 = length pre + length c)%nat).
  { unfold c. simpl. rewrite length_app. simpl. lia. }
  rewrite Hlen, slice_middle. f_equal.
  change (0 + 1 - 1)%Z with 0%Z. f_equal. lia.
Qed.

(** Concatenated objects whose braces match inside are the candidates of
    the scan, in order. *)
Lemma candidates_concat (ts : list text) :
  Forall (fun t => exists m, t = LBRACE :: m ++ [RBRACE] /\ balanced m) ts ->
  forall pre sp,
    candidates (pre ++ concat ts) (concat ts) (length pre) 0%Z sp = ts.
Proof.
  induction 1 as [|t ts (m & -> & Hm) _ IH]; intros pre sp; [reflexivity|].
  cbn [concat]. rewrite (candidates_object pre m (concat ts) sp Hm). f_equal.
  rewrite <- length_app.
  replace (pre ++ (LBRACE :: m ++ [RBRACE]) ++ concat ts)
    with ((pre ++ LBRACE :: m ++ [RBRACE]) ++ concat ts) by app_norm.
  apply IH.
Qed.

(** ** Concatenated objects *)

Lemma object_inner_balanced (o : dict) (c : text) :
  value_text (JObj o) c -> literals_brace_free Outside c = true ->
  exists m, c = LBRACE :: m ++ [RBRACE] /\ balanced m.
Proof.
  intros H Hwalk. inversion H as [| ? ? Hn | ? ? Hc | w Hw | w d' c' Hw Hm | |]; subst.
  - inversion Hn as [sign ip fr ex _ _ _ _ Hv Hc]. unfold number_value in Hv.
    destruct fr, ex; discriminate.
  - inversion Hc.
  - exists w. split; [reflexivity|]. apply balanced_no_braces. now apply ws_plain.
  - cbn [app] in Hwalk. rewrite walk_brace in Hwalk by auto.
    apply (quiet_ws w Hw) in Hwalk as [Bw Hwalk].
    rewrite <- (app_nil_r c') in Hwalk.
    apply (proj1 (proj2 grammar_quiet) _ _ _ Hm) in Hwalk as [(m & -> & Bm) _].
    exists (w ++ m). split; [app_norm | now apply balanced_app].
Qed.

(** A text that decodes to a mapping and has no white space around it is
    the text of that object. *)
Lemma exact_object_text (t : text) (o : dict) :
  decode t = Some (JObj o) -> strip t = t -> value_text (JObj o) t.
Proof.
  intros H Hs. destruct (decode_object_shape t o H) as (w1 & m & w2 & Ht & Hw1 & Hw2 & Hv).
  rewrite Ht in Hs at 1. rewrite strip_object in Hs by auto using all_ws_space.
  now rewrite <- Hs.
Qed.

Lemma concat_objects_last (ts : list text) :
  Forall (fun t => exists m, t = LBRACE :: m ++ [RBRACE] /\ balanced m) ts ->
  ts <> [] -> exists m', concat ts = LBRACE :: m' ++ [RBRACE].
Proof.
  induction 1 as [|t ts (m & -> & _) Hts IH]; intros Hne; [contradiction|].
  destruct ts as [|t' ts].
  - exists m. simpl. now rewrite app_nil_r.
  - destruct (IH ltac:(discriminate)) as (m' & Hm').
    cbn [concat] in *. rewrite Hm'.
    exists (m ++ [RBRACE] ++ LBRACE :: m'). app_norm.
Qed.

Lemma strip_concat_objects (ts : list text) :
  Forall (fun t => exists m, t = LBRACE :: m ++ [RBRACE] /\ balanced m) ts ->
  ts <> [] -> strip (concat ts) = concat ts.
Proof.
  intros H Hne. destruct (concat_objects_last ts H Hne) as (m' & ->).
  pose proof (strip_object [] [] m' eq_refl eq_refl) as Hs.
  simpl in Hs. rewrite app_nil_r in Hs. exact Hs.
Qed.

Lemma scanned_objects (ts : list text) (os : list dict) :
  Forall2 (fun t o => json_loads t = Ok (JObj o) /\ strip t = t
                      /\ literals_brace_free Outside t = true) ts os ->
  Forall (fun t => exists m, t = LBRACE :: m ++ [RBRACE] /\ balanced m) ts
  /\ flat_map text_records ts = os.
Proof.
  induction 1 as [|t o ts os (Ht & Hs & Hw) _ [IH1 IH2]]; [split; [constructor | reflexivity]|].
  apply json_loads_ok in Ht.
  pose proof (exact_object_text t o Ht Hs) as Hv.
  split.
  - constructor; [|exact IH1]. now apply (object_inner_balanced o).
  - cbn [flat_map]. unfold text_records at 1. now rewrite Ht, IH2.
Qed.

(** C2, as stated, fails: two valid objects with no string value at all,
    concatenated with no separator, that no earlier strategy parses; the
    brace in the first member name leaves the depth counter open and the
    scan finds no record. *)
Lemma brace_in_member_name_breaks_scan :
  let t1 := jtxt "{'a{':1}" in
  let t2 := jtxt "{'b':2}" in
  json_loads t1 = Ok (JObj [(txt "a{", JInt 1)])
  /\ json_loads t2 = Ok (JObj [(txt "b", JInt 2)])
  /\ try_single (t1 ++ t2) = None
  /\ try_array (t1 ++ t2) = None
  /\ try_lines (t1 ++ t2) = None
  /\ try_concatenated (t1 ++ t2) = Ok []
  /\ parse_json_file (Readable (t1 ++ t2)) = Ok [].
Proof. vm_compute. repeat split; reflexivity. Qed.

(** C2, amended: for every text made of N >= 1 valid JSON objects
    concatenated with no separator, in which no brace character stands
    inside a string literal, member names included, the brace scan returns
    exactly the N objects in left-to-right order; and so does the parser
    when none of the first three strategies returns. *)
Theorem concatenated_objects_scan (ts : list text) (os : list dict) :
  Forall2 (fun t o => json_loads t = Ok (JObj o) /\ strip t = t
                      /\ literals_brace_free Outside t = true) ts os ->
  ts <> [] ->
  try_concatenated (concat ts) = Ok os
  /\ length os = length ts
  /\ (try_single (concat ts) = None -> try_array (concat ts) = None ->
      try_lines (concat ts) = None ->
      parse_json_file (Readable (concat ts)) = Ok os).
Proof.
  intros H Hne. destruct (scanned_objects ts os H) as [Hshape Hrec].
  assert (Hscan : try_concatenated (concat ts) = Ok os).
  { rewrite try_concatenated_records.
    pose proof (candidates_concat ts Hshape [] 0%nat) as Hc.
    cbn [app length] in Hc. now rewrite Hc, Hrec. }
  split; [exact Hscan|]. split; [symmetry; eapply Forall2_length; eassumption|].
  intros H1 H2 H3. rewrite parse_json_file_readable.
  rewrite (strip_concat_objects ts Hshape Hne).
  unfold parse_content. now rewrite H1, H2, H3.
Qed.

Lemma concatenated_objects_scan_witness :
  let ts := [jtxt "{'a':1}"; jtxt "{'b':{'c':[2,'x']}}"] in
  let os := [[(txt "a", JInt 1)];
             [(txt "b", JObj [(txt "c", JArr [JInt 2; JStr (txt "x")])])]] in
  Forall2 (fun t o => json_loads t = Ok (JObj o) /\ strip t = t
                      /\ literals_brace_free Outside t = true) ts os
  /\ try_single (concat ts) = None
  /\ try_array (concat ts) = None
  /\ try_lines (concat ts) = None
  /\ try_concatenated (concat ts) = Ok os
  /\ parse_json_file (Readable (concat ts)) = Ok os.
Proof.
  assert (H : Forall2 (fun t o => json_loads t = Ok (JObj o) /\ strip t = t
                                  /\ literals_brace_free Outside t = true)
                [jtxt "{'a':1}"; jtxt "{'b':{'c':[2,'x']}}"]
                [[(txt "a", JInt 1)];
                 [(txt "b", JObj [(txt "c", JArr [JInt 2; JStr (txt "x")])])]]).
  { repeat constructor; vm_compute; reflexivity. }
  destruct (concatenated_objects_scan _ _ H ltac:(discriminate)) as (Hscan & _ & Hparse).
  split; [exact H|]. split; [vm_compute; reflexivity|].
  split; [vm_compute; reflexivity|]. split; [vm_compute; reflexivity|].
  split; [exact Hscan|].
  apply Hparse; vm_compute; reflexivity.
Defined.

(** * Further properties of json2jsonl.py *)

(** ** What the parser returns is a Python value *)

Lemma unique_keys_snoc (ks : list text) (k : text) :
  unique_keys ks = true ->
  existsb (fun k' => text_eqb k' k) ks = false ->
  unique_keys (ks ++ [k]) = true.
Proof.
  induction ks as [|k0 ks IH]; simpl; intros Hu He; [reflexivity|].
  apply andb_true_iff in Hu as [Hk0 Hu]. apply orb_false_iff in He as [He0 He].
  rewrite existsb_app. simpl. rewrite He0, orb_false_r, Hk0. simpl. now apply IH.
Qed.

Lemma dict_set_keys (k : text) (v : json) (d : dict) :
  map fst (dict_set k v d)
  = if existsb (fun k' => text_eqb k' k) (map fst d) then map fst d
    else map fst d ++ [k].
Proof.
  induction d as [|[k' v'] d IH]; simpl; [reflexivity|].
  destruct (text_eqb k' k) eqn:E; simpl; [reflexivity|].
  rewrite IH. now destruct (existsb (fun k'0 => text_eqb k'0 k) (map fst d)).
Qed.

Lemma dict_set_values (k : text) (v : json) (d : dict) :
  well_formed v = true ->
  forallb (fun kv => well_formed (snd kv)) d = true ->
  forallb (fun kv => well_formed (snd kv)) (dict_set k v d) = true.
Proof.
  intros Hv. induction d as [|[k' v'] d IH]; simpl; intros H.
  - now rewrite Hv.
  - apply andb_true_iff in H as [H1 H2].
    destruct (text_eqb k' k); simpl; [now rewrite Hv, H2 | now rewrite H1, IH].
Qed.

Lemma well_formed_dict_set (k : text) (v : json) (d : dict) :
  well_formed v = true -> well_formed (JObj d) = true ->
  well_formed (JObj (dict_set k v d)) = true.
Proof.
  intros Hv Hd. cbn [well_formed] in *. apply andb_true_iff in Hd as [Hk Hvals].
  rewrite dict_set_values by assumption. rewrite andb_true_r.
  rewrite dict_set_keys.
  destruct (existsb (fun k' => text_eqb k' k) (map fst d)) eqn:E; [exact Hk|].
  now apply unique_keys_snoc.
Qed.

Lemma number_text_well_formed (v : json) (c : text) :
  number_text v c -> well_formed v = true.
Proof.
  intros Hn. pose proof (lex_number_complete v c [] Hn eq_refl) as Hlex.
  rewrite app_nil_r in Hlex.
  destruct Hn as [sign ip fr ex Hsg Hip Hfr Hex].
  unfold number_value in *. destruct fr as [|f0 fr], ex as [|e0 ex]; try reflexivity;
    cbn [well_formed]; unfold valid_float; rewrite Hlex; now rewrite !orb_true_r.
Qed.

Lemma grammar_well_formed :
  (forall v c, value_text v c -> well_formed v = true)
  /\ (forall acc d c, members_text acc d c ->
        well_formed (JObj acc) = true -> well_formed (JObj d) = true)
  /\ (forall acc l c, elements_text acc l c ->
        forallb well_formed acc = true -> well_formed (JArr l) = true).
Proof.
  apply value_text_mutind; intros; auto.
  - eapply number_text_well_formed; eassumption.
  - match goal with H : const_text _ _ |- _ => destruct H; reflexivity end.
  - now apply well_formed_dict_set.
  - match goal with H : _ -> well_formed (JObj ?d) = true |- well_formed (JObj ?d) = true =>
      apply H end. now apply well_formed_dict_set.
  - cbn [well_formed]. rewrite forallb_forall. intros x Hx. apply in_rev in Hx.
    destruct Hx as [<-|Hx]; [assumption|].
    match goal with H : forallb well_formed _ = true |- _ =>
      rewrite forallb_forall in H; now apply H end.
  - match goal with H : _ -> well_formed (JArr ?l) = true |- well_formed (JArr ?l) = true =>
      apply H end. simpl. match goal with H : well_formed ?v = true |- _ => now rewrite H end.
Qed.

Lemma decode_well_formed (s : text) (v : json) :
  decode s = Some v -> well_formed v = true.
Proof.
  intros H. apply decode_sound in H as (_ & c & _ & _ & _ & _ & Hv).
  now apply (proj1 grammar_well_formed v c).
Qed.

Lemma text_records_ok (s : text) : forallb record_ok (text_records s) = true.
Proof.
  unfold text_records. destruct (decode s) as [v|] eqn:E; [|reflexivity].
  apply decode_well_formed in E. destruct v; try reflexivity.
  cbn [forallb]. unfold record_ok. now rewrite E.
Qed.

Lemma flat_map_records_ok (A : Type) (f : A -> list dict) (l : list A) :
  (forall x, forallb record_ok (f x) = true) ->
  forallb record_ok (flat_map f l) = true.
Proof.
  intros H. induction l as [|x l IH]; [reflexivity|].
  cbn [flat_map]. now rewrite forallb_app, H, IH.
Qed.

Lemma line_records_ok (line : text) : forallb record_ok (line_records line) = true.
Proof.
  unfold line_records. destruct (strip line); [reflexivity | apply text_records_ok].
Qed.

Lemma mapping_elements_ok (items : list json) :
  forallb well_formed items = true ->
  forallb record_ok (mapping_elements items) = true.
Proof.
  induction items as [|v items IH]; [reflexivity|].
  cbn [forallb]. intros H. apply andb_true_iff in H as [Hv H].
  specialize (IH H). unfold mapping_elements in *.
  destruct v; try exact IH.
  change (forallb record_ok (members :: flat_map (fun v => match v with JObj d => [d] | _ => [] end) items) = true).
  cbn [forallb]. unfold record_ok at 1. now rewrite Hv.
Qed.

Lemma parse_content_ok_records (content : text) (objects : list dict) :
  parse_content content = Ok objects -> forallb record_ok objects = true.
Proof.
  rewrite parse_content_cases.
  assert (Hlines : forallb record_ok (flat_map line_records (split_lines content)) = true)
    by (apply flat_map_records_ok, line_records_ok).
  assert (Hscan : forallb record_ok
                    (flat_map text_records (candidates content content 0 0%Z 0)) = true)
    by (apply flat_map_records_ok, text_records_ok).
  assert (Hrest : match flat_map line_records (split_lines content) with
                  | [] => Ok (flat_map text_records (candidates content content 0 0%Z 0))
                  | d :: ds => Ok (d :: ds)
                  end = Ok objects -> forallb record_ok objects = true).
  { destruct (flat_map line_records (split_lines content));
      intros H; inversion H; subst; assumption. }
  destruct (decode content) as [v|] eqn:E; [|exact Hrest].
  apply decode_well_formed in E.
  destruct v; try exact Hrest; intros H; inversion H; subst.
  - now apply mapping_elements_ok.
  - cbn [forallb]. unfold record_ok. now rewrite E.
Qed.

(** ** Blank input *)

Lemma strip_all_space (w : text) : all_space w -> strip w = [].
Proof.
  intros H. unfold strip.
  rewrite <- (app_nil_r w), lstrip_app_space by assumption. reflexivity.
Qed.

(** X1: an input file that holds nothing but white space (an empty file
    included) gives no record, and the command then ends with status 1
    without opening the output. *)
Theorem blank_input_no_record (raw : text) :
  all_space raw ->
  parse_json_file (Readable raw) = Ok []
  /\ forall a output, main a (Readable raw) output = (None, Raise (SystemExit 1)).
Proof.
  intros H.
  assert (Hp : parse_json_file (Readable raw) = Ok []).
  { rewrite parse_json_file_readable, strip_all_space by assumption. reflexivity. }
  split; [exact Hp|]. intros a output. unfold main. rewrite Hp. reflexivity.
Qed.

Lemma blank_input_no_record_witness :
  parse_json_file (Readable [SPACE; NEWLINE; 9; NEWLINE]) = Ok []
  /\ forall a output,
       main a (Readable [SPACE; NEWLINE; 9; NEWLINE]) output = (None, Raise (SystemExit 1)).
Proof.
  apply (blank_input_no_record [SPACE; NEWLINE; 9; NEWLINE]). reflexivity.
Defined.

(** ** A write that fails *)





(** ** Converting twice *)

Lemma rewritten_records (objects : list dict) (indent : option Z) :
  forallb record_ok objects = true ->
  parse_content (strip (concat (map (record_line false indent) objects))) = Ok objects.
Proof.
  intros Hok. rewrite written_lines.
  destruct objects as [|o objects]; [reflexivity|].
  rewrite concat_lines_join by discriminate.
  apply parse_lines_of_objects; [now apply dumped_records | discriminate | reflexivity].
Qed.

Lemma main_compact_ok (a : args) (raw : text) (output : sink) (written : text) :
  arg_pretty a = false ->
  main a (Readable raw) output = (Some written, Ok tt) ->
  exists objects,
    parse_json_file (Readable raw) = Ok objects /\ objects <> []
    /\ written = concat (map (record_line false None) objects).
Proof.
  intros Hp. unfold main. cbn [exists_ negb]. cbv iota.
  destruct (parse_content_ok (strip raw)) as (objects & Ho).
  rewrite parse_json_file_readable, Ho, Hp.
  destruct objects as [|d ds]; [discriminate|].
  rewrite write_jsonl_file_status.
  destruct (open_ok output && _); [|discriminate].
  intros H. inversion H. exists (d :: ds). repeat split. discriminate.
Qed.

(** X3: the command is idempotent in compact mode.  Whatever the input
    held, what a successful run without [--pretty] wrote is a file that a
    second run without [--pretty] converts to itself, character for
    character. *)
Theorem conversion_is_idempotent (a a' : args) (raw written : text)
    (output output' : sink) :
  arg_pretty a = false -> arg_pretty a' = false ->
  main a (Readable raw) output = (Some written, Ok tt) ->
  open_ok output' = true ->
  (forall k t, write_ok output' k t = true) ->
  main a' (Readable written) output' = (Some written, Ok tt).
Proof.
  intros Hp Hp' Hrun Hopen Hwrite.
  destruct (main_compact_ok a raw output written Hp Hrun) as (objects & Ho & Hne & ->).
  assert (Hok : forallb record_ok objects = true).
  { rewrite parse_json_file_readable in Ho. now apply parse_content_ok_records in Ho. }
  unfold main. cbn [exists_ negb]. cbv iota.
  rewrite parse_json_file_readable, rewritten_records, Hp' by assumption.
  destruct objects as [|d ds]; [contradiction|].
  rewrite write_jsonl_file_status, Hopen, all_written_total by assumption.
  reflexivity.
Qed.

Lemma conversion_is_idempotent_witness :
  let a := {| arg_pretty := false; arg_indent := 2; arg_verbose := false |} in
  let s := {| open_ok := true; write_ok := fun _ _ => true |} in
  let written := jtxt "{'a':1,'b':[2.5,'}']}" ++ NEWLINE :: jtxt "{'c':null}" ++ [NEWLINE] in
  main a (Readable (jtxt " [ {'a': 1, 'b': [2.5, '}']}, 7, {'c': null} ] ")) s
  = (Some written, Ok tt)
  /\ main a (Readable written) s = (Some written, Ok tt).
Proof.
  assert (H : main {| arg_pretty := false; arg_indent := 2; arg_verbose := false |}
                (Readable (jtxt " [ {'a': 1, 'b': [2.5, '}']}, 7, {'c': null} ] "))
                {| open_ok := true; write_ok := fun _ _ => true |}
              = (Some (jtxt "{'a':1,'b':[2.5,'}']}" ++ NEWLINE :: jtxt "{'c':null}" ++ [NEWLINE]),
                 Ok tt)) by (vm_compute; reflexivity).
  split; [exact H|].
  apply (conversion_is_idempotent
           {| arg_pretty := false; arg_indent := 2; arg_verbose := false |}
           {| arg_pretty := false; arg_indent := 2; arg_verbose := false |}
           (jtxt " [ {'a': 1, 'b': [2.5, '}']}, 7, {'c': null} ] ")
           (jtxt "{'a':1,'b':[2.5,'}']}" ++ NEWLINE :: jtxt "{'c':null}" ++ [NEWLINE])
           {| open_ok := true; write_ok := fun _ _ => true |}
           {| open_ok := true; write_ok := fun _ _ => true |});
    [reflexivity | reflexivity | exact H | reflexivity | intros; reflexivity].
Defined.

(** ** The indented encoding *)

Lemma all_ws_repeat_space (k : nat) : all_ws (repeat SPACE k).
Proof. induction k as [|k IH]; [reflexivity | exact IH]. Qed.

Lemma all_ws_concat_repeat (unit : text) (level : nat) :
  all_ws unit -> all_ws (concat (repeat unit level)).
Proof.
  intros H. induction level as [|level IH]; [reflexivity|].
  cbn [repeat concat]. now apply all_ws_app.
Qed.

Lemma all_ws_newline_indent (indent : option text) (level : nat) :
  (forall unit, indent = Some unit -> all_ws unit) ->
  all_ws (newline_indent indent level).
Proof.
  intros H. destruct indent as [unit|]; [|reflexivity].
  unfold newline_indent.
  change (all_ws ([NEWLINE] ++ concat (repeat unit level))).
  apply all_ws_app; [reflexivity | now apply all_ws_concat_repeat, H].
Qed.

Lemma encode_array_nonempty (item_sep key_sep : text) (indent : option text)
    (level : nat) (a : json) (l : list json) :
  encode item_sep key_sep indent level (JArr (a :: l))
  = LBRACKET :: newline_indent indent (S level)
    ++ join (item_sep ++ newline_indent indent (S level))
            (map (encode item_sep key_sep indent (S level)) (a :: l))
    ++ newline_indent indent level ++ [RBRACKET].
Proof. reflexivity. Qed.

Lemma encode_object_nonempty (item_sep key_sep : text) (indent : option text)
    (level : nat) (a : text * json) (l : list (text * json)) :
  encode item_sep key_sep indent level (JObj (a :: l))
  = LBRACE :: newline_indent indent (S level)
    ++ join (item_sep ++ newline_indent indent (S level))
            (map (fun kv => encode_string (fst kv) ++ key_sep
                            ++ encode item_sep key_sep indent (S level) (snd kv)) (a :: l))
    ++ newline_indent indent level ++ [RBRACE].
Proof. reflexivity. Qed.

(** The elements of an array, with white space after each comma and before
    the closing bracket. *)
Lemma elements_of_values_sep (enc : json -> text) (wsep wend : text) (items : list json) :
  all_ws wsep -> all_ws wend ->
  Forall (fun v => value_text v (enc v)) items -> items <> [] ->
  forall acc,
    elements_text acc (rev acc ++ items)
      (join (COMMA :: wsep) (map enc items) ++ wend ++ [RBRACKET]).
Proof.
  intros Hsep Hend.
  induction 1 as [|v items Hv Hitems IH]; intros Hne acc; [contradiction|].
  destruct items as [|v' items].
  - pose proof (ET_last acc v (enc v) wend Hv Hend) as H.
    simpl in *. exact H.
  - pose proof (ET_more acc v (enc v) [] wsep _ _ Hv eq_refl Hsep
                  (IH ltac:(discriminate) (v :: acc))) as H.
    simpl in H. rewrite <- app_assoc in H. simpl in H.
    change (join (COMMA :: wsep) (map enc (v :: v' :: items)))
      with (enc v ++ (COMMA :: wsep) ++ join (COMMA :: wsep) (map enc (v' :: items))).
    rewrite <- !app_assoc. exact H.
Qed.

(** The members of an object with fresh keys, with white space after each
    colon, after each comma and before the closing brace. *)
Lemma members_of_values_sep (enc : json -> text) (wkey wsep wend : text)
    (members : list (text * json)) :
  all_ws wkey -> all_ws wsep -> all_ws wend ->
  Forall (fun kv => value_text (snd kv) (enc (snd kv))) members -> members <> [] ->
  forall acc,
    NoDup (map fst (acc ++ members)) ->
    members_text acc (acc ++ members)
      (join (COMMA :: wsep)
            (map (fun kv => encode_string (fst kv) ++ (COLON :: wkey) ++ enc (snd kv))
                 members) ++ wend ++ [RBRACE]).
Proof.
  intros Hkey Hsep Hend.
  induction 1 as [|[k v] members Hv Hmembers IH]; intros Hne acc Hnd; [contradiction|].
  assert (Hfresh : ~ In k (map fst acc)).
  { rewrite map_app in Hnd. simpl in Hnd. apply NoDup_remove_2 in Hnd.
    intros Hin. apply Hnd. apply in_or_app. now left. }
  simpl in Hv.
  destruct members as [|kv' members].
  - pose proof (MT_last acc k _ [] wkey v (enc v) wend (encode_string_lit k)
                  eq_refl Hkey Hv Hend) as H.
    rewrite dict_set_fresh in H by assumption.
    unfold encode_string. simpl in *.
    repeat (rewrite <- app_assoc || rewrite <- app_comm_cons).
    repeat (rewrite <- app_assoc in H || rewrite <- app_comm_cons in H). exact H.
  - assert (Hnd' : NoDup (map fst ((acc ++ [(k, v)]) ++ kv' :: members))).
    { now rewrite <- app_assoc. }
    pose proof (IH ltac:(discriminate) (acc ++ [(k, v)]) Hnd') as Hrest.
    rewrite <- (dict_set_fresh k v acc Hfresh) in Hrest at 1.
    pose proof (MT_more acc k _ [] wkey v (enc v) [] wsep _ _ (encode_string_lit k)
                  eq_refl Hkey Hv eq_refl Hsep Hrest) as H.
    rewrite <- app_assoc in H. simpl in H.
    change (join (COMMA :: wsep)
              (map (fun kv => encode_string (fst kv) ++ (COLON :: wkey) ++ enc (snd kv))
                   ((k, v) :: kv' :: members)))
      with ((encode_string k ++ (COLON :: wkey) ++ enc v) ++ (COMMA :: wsep)
            ++ join (COMMA :: wsep)
                 (map (fun kv => encode_string (fst kv) ++ (COLON :: wkey) ++ enc (snd kv))
                      (kv' :: members))).
    unfold encode_string at 1. simpl.
    repeat (rewrite <- app_assoc || rewrite <- app_comm_cons).
    repeat (rewrite <- app_assoc in H || rewrite <- app_comm_cons in H). exact H.
Qed.

(** With white space after the separators and a white-space indentation
    unit, the encoding of a value is a text of the grammar for that value,
    at every nesting level. *)
Lemma encode_text (wsep wkey : text) (indent : option text) :
  all_ws wsep -> all_ws wkey ->
  (forall unit, indent = Some unit -> all_ws unit) ->
  forall v level, well_formed v = true ->
    value_text v (encode (COMMA :: wsep) (COLON :: wkey) indent level v).
Proof.
  intros Hsep Hkey Hind.
  induction v as [| b | z | lit | s | items IH | members IH] using json_induction;
    intros level Hwf.
  - apply VT_const; constructor.
  - destruct b; apply VT_const; constructor.
  - apply VT_number, Z_digits_text.
  - simpl in Hwf. now apply valid_float_text in Hwf as [Hv _].
  - apply VT_string, encode_string_lit.
  - destruct items as [|a l]; [apply (VT_empty_array []); reflexivity|].
    rewrite encode_array_nonempty.
    apply (VT_array (newline_indent indent (S level)) (a :: l));
      [now apply all_ws_newline_indent|].
    apply (elements_of_values_sep _ (wsep ++ newline_indent indent (S level))
             (newline_indent indent level) (a :: l)) with (acc := []);
      [apply all_ws_app; [assumption | now apply all_ws_newline_indent]
      | now apply all_ws_newline_indent | | discriminate].
    cbn [well_formed] in Hwf. rewrite forallb_forall in Hwf.
    rewrite Forall_forall in IH |- *. intros x Hx. apply IH; auto.
  - destruct members as [|a l]; [apply (VT_empty_object []); reflexivity|].
    rewrite encode_object_nonempty.
    cbn [well_formed] in Hwf. apply andb_true_iff in Hwf as [Hkeys Hvals].
    apply (VT_object (newline_indent indent (S level)) (a :: l));
      [now apply all_ws_newline_indent|].
    apply (members_of_values_sep (encode (COMMA :: wsep) (COLON :: wkey) indent (S level))
             wkey (wsep ++ newline_indent indent (S level))
             (newline_indent indent level) (a :: l)) with (acc := []);
      [assumption
      | apply all_ws_app; [assumption | now apply all_ws_newline_indent]
      | now apply all_ws_newline_indent | | discriminate | now apply unique_keys_NoDup].
    rewrite forallb_forall in Hvals.
    rewrite Forall_forall in IH |- *. intros x Hx. apply IH; auto.
Qed.


Lemma dumps_indent_text (indent : option Z) (v : json) :
  well_formed v = true -> value_text v (dumps_indent indent v).
Proof.
  intros H. destruct indent as [n|]; unfold dumps_indent.
  - apply (encode_text [] [SPACE] (Some (repeat SPACE (Z.to_nat n)))); auto;
      try reflexivity.
    intros unit Hu. inversion Hu. apply all_ws_repeat_space.
  - apply (encode_text [SPACE] [SPACE] None); auto; try reflexivity. discriminate.
Qed.


(** ** Pretty output *)

(** X4: a single record written with [--pretty], whatever the indent, is
    read back by the parser as that same record: the whole file is one
    JSON document. *)
Theorem pretty_single_round_trip (d : dict) (s : sink) (indent : option Z) :
  record_ok d = true ->
  open_ok s = true ->
  (forall k t, write_ok s k t = true) ->
  exists written,
    write_jsonl_file [d] s true indent = (Some written, Ok tt)
    /\ parse_json_file (Readable written) = Ok [d].
Proof.
  intros Hok Hopen Hwrite.
  exists (concat (map (record_line true indent) [d])). split.
  - rewrite write_jsonl_file_status, Hopen, all_written_total by assumption. reflexivity.
  - rewrite parse_json_file_readable. cbn [map concat]. rewrite app_nil_r.
    unfold record_line.
    pose proof (dumps_indent_text indent (JObj d) Hok) as Hv.
    destruct (object_text_shape _ _ Hv) as (m & Hm). rewrite Hm in *.
    change ((LBRACE :: m ++ [RBRACE]) ++ [NEWLINE])
      with ([] ++ (LBRACE :: m ++ [RBRACE]) ++ [NEWLINE]).
    rewrite strip_object by reflexivity.
    rewrite parse_content_cases. now rewrite (decode_object_text d _ Hv).
Qed.

Lemma pretty_single_round_trip_witness :
  let d := [(txt "a", JArr [JObj []; JInt 1]); (txt "b", JObj [(txt "c", JNull)])] in
  let s := {| open_ok := true; write_ok := fun _ _ => true |} in
  record_ok d = true
  /\ exists written,
       write_jsonl_file [d] s true (Some 2%Z) = (Some written, Ok tt)
       /\ parse_json_file (Readable written) = Ok [d].
Proof.
  split; [vm_compute; reflexivity|].
  apply (pretty_single_round_trip
           [(txt "a", JArr [JObj []; JInt 1]); (txt "b", JObj [(txt "c", JNull)])]
           {| open_ok := true; write_ok := fun _ _ => true |} (Some 2%Z));
    [vm_compute; reflexivity | reflexivity | intros; reflexivity].
Defined.






Lemma pretty_record_newlines (d : dict) (n : Z) :
  d <> [] ->
  (3 <= count_occ N.eq_dec (record_line true (Some n) d) NEWLINE)%nat.
Proof.
  intros Hne. destruct d as [|a l]; [contradiction|].
  unfold record_line, dumps_indent. rewrite encode_object_nonempty.
  unfold newline_indent.
  set (body := join _ _). set (u := repeat SPACE (Z.to_nat n)).
  set (A := concat (repeat u 1)). set (B := concat (repeat u 0)).
  change (3 <= count_occ N.eq_dec
                 (([LBRACE] ++ [NEWLINE] ++ A ++ body ++ [NEWLINE] ++ B ++ [RBRACE])
                  ++ [NEWLINE]) NEWLINE)%nat.
  rewrite !count_occ_app.
  assert (H1 : count_occ N.eq_dec [NEWLINE] NEWLINE = 1%nat) by reflexivity.
  rewrite H1. lia.
Qed.

(** X6: with [--pretty] and an indent, the output is not line-delimited: a
    record that has a member takes three lines or more, whatever the
    indent, so the output of N such records holds 3N newline characters at
    least. *)
Theorem pretty_records_span_lines (objects : list dict) (s : sink) (n : Z) :
  Forall (fun d => d <> []) objects ->
  open_ok s = true ->
  (forall k t, write_ok s k t = true) ->
  exists written,
    write_jsonl_file objects s true (Some n) = (Some written, Ok tt)
    /\ (3 * length objects <= count_occ N.eq_dec written NEWLINE)%nat.
Proof.
  intros Hne Hopen Hwrite.
  exists (concat (map (record_line true (Some n)) objects)). split.
  - rewrite write_jsonl_file_status, Hopen, all_written_total by assumption. reflexivity.
  - induction Hne as [|d objects Hd _ IH]; [simpl; lia|].
    cbn [map concat length]. rewrite count_occ_app.
    pose proof (pretty_record_newlines d n Hd). lia.
Qed.

Lemma pretty_records_span_lines_witness :
  exists written,
    write_jsonl_file [[(txt "a", JInt 1)]; [(txt "b", JArr [])]]
      {| open_ok := true; write_ok := fun _ _ => true |} true (Some 0%Z)
    = (Some written, Ok tt)
    /\ (3 * 2 <= count_occ N.eq_dec written NEWLINE)%nat.
Proof.
  apply (pretty_records_span_lines [[(txt "a", JInt 1)]; [(txt "b", JArr [])]]
           {| open_ok := true; write_ok := fun _ _ => true |} 0%Z);
    [repeat constructor; discriminate | reflexivity | intros; reflexivity].
Defined.
